(** * dedup: MinHash near-duplicate detection (src/main.cpp)

    A shallow embedding of [TokenGen], [MinHasher] and [Deduplicator] and the
    properties of the tokenizer, the signature computation, the distance
    estimate and the all-pairs report.

    Conventions.
    - [size_t] and [uint32_t] values are integers in [Z]; arithmetic that can
      wrap is written with [u64] / [u32].
    - [double] is IEEE 754 binary64, modelled by the executable specification
      [SpecFloat] of the standard library at precision 53 and emax 1024.
    - [std::vector] is a list read with [vec_at]; an access outside the vector
      is undefined behaviour, as is an integer modulus by zero.
    - [std::unordered_set<size_t>] is a finite set [gset Z]; the order in which
      a range-for visits it is left open, see [bucket_order].
    - loops that are not structurally bounded take fuel; the entry points
      supply fuel that the lemmas below show to be enough.
    - the two coefficient vectors, whose size is the configuration value
      [num_hashes], are allocated by [vector_resize], which can throw; every
      other container and string is taken to be allocated. *)

From Stdlib Require Import ZArith Lia List Ascii String SpecFloat.
From stdpp Require Import base option list strings gmap sets sorting.

Open Scope Z_scope.

(** ** Outcomes of a computation *)

Inductive outcome (A : Type) : Type :=
| Ok (a : A)
| Undefined
| OutOfFuel.
Arguments Ok {A} a.
Arguments Undefined {A}.
Arguments OutOfFuel {A}.

#[global] Instance outcome_ret : MRet outcome := fun A a => Ok a.
#[global] Instance outcome_bind : MBind outcome := fun A B f m =>
  match m with
  | Ok a => f a
  | Undefined => Undefined
  | OutOfFuel => OutOfFuel
  end.

(** [v[i]] on a vector. *)
Definition vec_at {A} (v : list A) (i : nat) : outcome A :=
  match v !! i with
  | Some x => Ok x
  | None => Undefined
  end.

(** A loop over a fixed sequence of indices or elements, threading the loop
    state and stopping at the first failure. *)
Fixpoint for_each {A S} (body : S -> A -> outcome S) (s : S) (l : list A) : outcome S :=
  match l with
  | [] => Ok s
  | x :: l => s' ← body s x; for_each body s' l
  end.

(** ** Exceptions *)

(** The exceptions of <stdexcept> and <new> that the program can meet; it
    defines and throws none of its own. *)
Inductive exception : Type :=
| length_error
| bad_alloc.

Inductive thrown (A : Type) : Type :=
| Returns (a : A)
| Throws (e : exception).
Arguments Returns {A} a.
Arguments Throws {A} e.

Section Allocation.
(** The allocator is not part of the repository: [allocate mem n] is
    [operator new] for [n] bytes on the heap [mem], [None] standing for
    [std::bad_alloc], and [max_size] is [vector<uint32_t>::max_size()]. *)
Context {heap : Type}.
Variable max_size : Z.
Variable allocate : heap -> Z -> option heap.

(** [v.resize(n)] on an empty [vector<uint32_t>]: nothing is appended for
    [n = 0]; above [max_size()] the call throws [std::length_error];
    otherwise storage for [n] elements of four bytes is allocated. *)
Definition vector_resize (mem : heap) (n : nat) : thrown heap :=
  if bool_decide (n = 0%nat) then Returns mem
  else if bool_decide (max_size < Z.of_nat n) then Throws length_error
  else match allocate mem (4 * Z.of_nat n) with
       | Some mem => Returns mem
       | None => Throws bad_alloc
       end.
End Allocation.

(** ** Machine integers and doubles *)

Definition u64 (x : Z) : Z := x mod 2 ^ 64.
Definition u32 (x : Z) : Z := x mod 2 ^ 32.

Definition double : Type := spec_float.
Definition dbl_zero : double := S754_zero false.
Definition dbl_one : double := Eval cbv in SFone 53 1024.
Definition dbl_sub : double -> double -> double := SFsub 53 1024.
Definition dbl_div : double -> double -> double := SFdiv 53 1024.
Definition dbl_lt : double -> double -> bool := SFltb.
Definition dbl_eq : double -> double -> bool := SFeqb.
Definition dbl_le : double -> double -> bool := SFleb.

(** [static_cast<double>] of a [size_t], rounding to nearest even. *)
Definition double_of_size_t (n : Z) : double := binary_normalize 53 1024 n 0 false.

(** ** Strings *)

Definition string_view : Type := list ascii.

Definition sv_empty (s : string_view) : bool :=
  match s with
  | [] => true
  | _ :: _ => false
  end.

(** [sv.find_first_of(del)]: the first position holding a character of
    [del], [None] for [npos]. *)
Fixpoint find_first_of (sv del : string_view) : option nat :=
  match sv with
  | [] => None
  | c :: rest =>
      if bool_decide (c ∈ del) then Some 0%nat
      else S <$> find_first_of rest del
  end.

Definition remove_suffix (s : string_view) (n : nat) : string_view :=
  take (length s - n) s.
Definition remove_prefix (s : string_view) (n : nat) : string_view :=
  drop n s.

(** [isalnum] of <cctype> in the "C" locale, on an [int] in 0..255. *)
Definition isalnum (c : Z) : bool :=
  (48 <=? c) && (c <=? 57) || (65 <=? c) && (c <=? 90) || (97 <=? c) && (c <=? 122).

Definition char_of_int (c : Z) : ascii := ascii_of_N (Z.to_N (c mod 256)).
Definition int_of_char (c : ascii) : Z := Z.of_N (N_of_ascii c).

(** ** TokenGen *)

Record TokenGen : Type := mkTokenGen { sv_ : string_view; del_ : string_view }.

(** [operator bool]. *)
Definition TokenGen_bool (g : TokenGen) : bool := negb (sv_empty (sv_ g)).

(** [operator()]: the [while (true)] loop, one iteration per unit of fuel. *)
Fixpoint TokenGen_call_loop (fuel : nat) (g : TokenGen)
  : outcome (string_view * TokenGen) :=
  match fuel with
  | O => OutOfFuel
  | S fuel =>
      let r := sv_ g in
      let '(r, g) :=
        match find_first_of (sv_ g) (del_ g) with
        | None => (r, mkTokenGen [] (del_ g))
        | Some it =>
            (remove_suffix r (length r - it),
             mkTokenGen (remove_prefix (sv_ g) (it + 1)) (del_ g))
        end in
      if negb (sv_empty r) then Ok (r, g)
      else if sv_empty (sv_ g) then Ok ([], g)
      else TokenGen_call_loop fuel g
  end.

Definition TokenGen_call (g : TokenGen) : outcome (string_view * TokenGen) :=
  TokenGen_call_loop (S (length (sv_ g))) g.

(** The tokens a client obtains with [while (splitter) splitter()]. *)
Fixpoint TokenGen_drain_loop (fuel : nat) (g : TokenGen) : outcome (list string_view) :=
  match fuel with
  | O => OutOfFuel
  | S fuel =>
      if TokenGen_bool g then
        '(token, g') ← TokenGen_call g;
        rest ← TokenGen_drain_loop fuel g';
        Ok (token :: rest)
      else Ok []
  end.

Definition TokenGen_drain (g : TokenGen) : outcome (list string_view) :=
  TokenGen_drain_loop (S (length (sv_ g))) g.

(** ** MinHasher *)

Definition kHashPrime : Z := 2038074743.

Record MinHasher : Type := mkMinHasher {
  num_hashes_ : nat;
  a_ : list Z;
  b_ : list Z;
}.

Section Random.
(** <random> is not part of the repository: the engine and the distribution
    are parameters.  [mt19937 seed] is the seeded engine and
    [uniform_int_distribution lo hi rng] one draw from the closed range,
    returning the advanced engine. *)
Context {engine : Type}.
Variable mt19937 : Z -> engine.
Variable uniform_int_distribution : Z -> Z -> engine -> Z * engine.
Context {heap : Type}.
Variable max_size : Z.
Variable allocate : heap -> Z -> option heap.

(** The object the constructor builds once [a_.resize] and [b_.resize] have
    returned: both vectors zero-filled, then one pair drawn per index. *)
Definition MinHasher_ctor (num_hashes : nat) (seed : Z) : MinHasher :=
  let rng := mt19937 seed in
  let a := replicate num_hashes 0 in
  let b := replicate num_hashes 0 in
  let '(a, b, _) :=
    fold_left (fun '(a, b, rng) i =>
                 let '(va, rng) := uniform_int_distribution 1 (kHashPrime - 1) rng in
                 let '(vb, rng) := uniform_int_distribution 0 (kHashPrime - 1) rng in
                 (<[i := va]> a, <[i := vb]> b, rng))
              (seq 0 num_hashes) (a, b, rng) in
  mkMinHasher num_hashes a b.

(** The constructor with its two allocations, either of which can throw. *)
Definition MinHasher_construct (mem : heap) (num_hashes : nat) (seed : Z)
  : thrown (MinHasher * heap) :=
  match vector_resize max_size allocate mem num_hashes with
  | Throws e => Throws e
  | Returns mem =>
      match vector_resize max_size allocate mem num_hashes with
      | Throws e => Throws e
      | Returns mem => Returns (MinHasher_ctor num_hashes seed, mem)
      end
  end.
End Random.

(** The hash of feature [idx] under coefficients [a], [b], computed in
    [unsigned long long] and narrowed to [uint32_t]. *)
Definition slot_hash (a b idx : Z) : Z :=
  u32 (u64 (u64 (u64 (1 + idx) * a) + b) mod kHashPrime).

(** The body of the inner loop of [compute_signature]: slot [i] for
    feature [idx]. *)
Definition update_slot (h : MinHasher) (idx : Z) (sig : list Z) (i : nat)
  : outcome (list Z) :=
  a ← vec_at (a_ h) i;
  b ← vec_at (b_ h) i;
  s ← vec_at sig i;
  Ok (<[i := Z.min s (slot_hash a b idx)]> sig).

Section Signature.
(** The order in which a range-for visits an unordered set is unspecified;
    [bucket_order] is that order. *)
Variable bucket_order : gset Z -> list Z.

Definition compute_signature (h : MinHasher) (feature_indices : gset Z)
  : outcome (list Z) :=
  let sig := replicate (num_hashes_ h) kHashPrime in
  for_each (fun sig idx => for_each (update_slot h idx) sig (seq 0 (num_hashes_ h)))
    sig (bucket_order feature_indices).
End Signature.

(** Every member is visited exactly once. *)
Definition visits_each_once (bucket_order : gset Z -> list Z) : Prop :=
  ∀ S : gset Z, bucket_order S ≡ₚ elements S.

(** The body of the counting loop of [jaccard_distance]; [m] is [match]. *)
Definition count_body (a b : list Z) (m : Z) (i : nat) : outcome Z :=
  x ← vec_at a i;
  y ← vec_at b i;
  Ok (if bool_decide (x = y) then u64 (m + 1) else m).

Definition jaccard_distance (a b : list Z) : outcome double :=
  matches ← for_each (count_body a b) 0 (seq 0 (length a));
  Ok (dbl_sub dbl_one
        (dbl_div (double_of_size_t matches) (double_of_size_t (Z.of_nat (length a))))).

(** ** Deduplicator *)

Record Deduplicator : Type := mkDeduplicator {
  ngrams_ : nat;
  num_features_ : Z;
  threshold_ : double;
  nonalnum_ : string_view;
  hasher_ : MinHasher;
}.

(** The constructor body: every byte value that is not alphanumeric, in
    increasing order. *)
Definition build_nonalnum : string_view :=
  fold_left (fun s c => if negb (isalnum c) then s ++ [char_of_int c] else s)
            (Z.of_nat <$> seq 0 256) [].

(** One block written to [std::cout] by [process], tagged with the loop
    indices that produced it. *)
Record DuplicatePairReport : Type := mkReport {
  rep_i : nat;
  rep_j : nat;
  rep_jaccard : double;
  rep_doc_i : string_view;
  rep_doc_j : string_view;
}.

Section Pipeline.
Context {engine : Type}.
Variable mt19937 : Z -> engine.
Variable uniform_int_distribution : Z -> Z -> engine -> Z * engine.
Context {heap : Type}.
Variable max_size : Z.
Variable allocate : heap -> Z -> option heap.
(** include/MurmurHash3.h is not among the sources: the hash is a parameter,
    [MurmurHash3_x86_32 key seed] being the value written through [out]. *)
Variable MurmurHash3_x86_32 : string_view -> Z -> Z.
Variable bucket_order : gset Z -> list Z.

(** The constructor tests none of its arguments and throws nothing itself:
    the members are initialised from the arguments, [hasher_(num_hashes)]
    takes the default seed 1 and is the one step that can throw, and the body
    fills [nonalnum_]. *)
Definition Deduplicator_ctor (mem : heap) (ngrams num_hashes : nat)
    (threshold : double) (num_features : Z) : thrown Deduplicator :=
  match MinHasher_construct mt19937 uniform_int_distribution max_size allocate
          mem num_hashes 1 with
  | Throws e => Throws e
  | Returns (hasher, _) =>
      Returns (mkDeduplicator ngrams num_features threshold build_nonalnum hasher)
  end.

(** The body of [while (splitter)] in [extract_features] once the token is
    read: the window slides and, when full, its n-gram is hashed and the
    index inserted. *)
Definition consume_token (d : Deduplicator)
    (state : list string_view * gset Z) (token : string_view)
  : outcome (list string_view * gset Z) :=
  let '(window, indices) := state in
  let window := window ++ [token] in
  let window :=
    if bool_decide (ngrams_ d < length window)%nat then drop 1 window
    else window in
  if bool_decide (length window = ngrams_ d) then
    let combined := concat ((fun w => w ++ ["_"%char]) <$> window) in
    let h := u32 (MurmurHash3_x86_32 combined 0) in
    if bool_decide (num_features_ d = 0) then Undefined
    else Ok (window, {[ h mod num_features_ d ]} ∪ indices)
  else Ok (window, indices).

Fixpoint extract_features_loop (fuel : nat) (d : Deduplicator)
    (splitter : TokenGen) (state : list string_view * gset Z)
  : outcome (gset Z) :=
  match fuel with
  | O => OutOfFuel
  | S fuel =>
      if TokenGen_bool splitter then
        '(token, splitter) ← TokenGen_call splitter;
        state ← consume_token d state token;
        extract_features_loop fuel d splitter state
      else Ok (snd state)
  end.

Definition extract_features (d : Deduplicator) (text : string_view)
  : outcome (gset Z) :=
  extract_features_loop (S (length text)) d (mkTokenGen text (nonalnum_ d)) ([], ∅).

(** The first loop of [process], for one document. *)
Definition signature_of (d : Deduplicator) (doc : string_view) : outcome (list Z) :=
  ngrams ← extract_features d doc;
  compute_signature bucket_order (hasher_ d) ngrams.

(** The body of the inner loop of [process]: the pair [(i, j)]. *)
Definition compare_pair (d : Deduplicator) (docs : list string_view)
    (signatures : list (list Z)) (i : nat) (out : list DuplicatePairReport)
    (j : nat) : outcome (list DuplicatePairReport) :=
  si ← vec_at signatures i;
  sj ← vec_at signatures j;
  dist ← jaccard_distance si sj;
  if dbl_lt dist (threshold_ d) then
    di ← vec_at docs i;
    dj ← vec_at docs j;
    Ok (out ++ [mkReport i j (dbl_sub dbl_one dist) di dj])
  else Ok out.

Definition compute_signatures (d : Deduplicator) (docs : list string_view)
  : outcome (list (list Z)) :=
  for_each (fun signatures doc =>
      sig ← signature_of d doc;
      Ok (signatures ++ [sig]))
    [] docs.

Definition process (d : Deduplicator) (docs : list string_view)
  : outcome (list DuplicatePairReport) :=
  signatures ← compute_signatures d docs;
  for_each (fun out i =>
      for_each (compare_pair d docs signatures i) out
        (seq (i + 1) (length docs - (i + 1))))
    [] (seq 0 (length docs)).
End Pipeline.

(** ** Reference notions *)

(** The pieces of a text between consecutive delimiters, empty pieces
    included: a text with [k] delimiters has [k + 1] pieces. *)
Fixpoint pieces (del : string_view) (s : string_view) : list string_view :=
  match s with
  | [] => [[]]
  | c :: s' =>
      if bool_decide (c ∈ del) then [] :: pieces del s'
      else match pieces del s' with
           | p :: ps => (c :: p) :: ps
           | [] => [[c]]
           end
  end.

(** The tokens of a text: its maximal runs of non-delimiter bytes, i.e. its
    non-empty pieces. *)
Definition maximal_runs (del : string_view) (s : string_view) : list string_view :=
  filter (fun p => p ≠ []) (pieces del s).

(** [t] occurs in [s] as a non-empty run of non-delimiter bytes that cannot
    be extended: it is preceded by a delimiter or the start of the text and
    followed by a delimiter or the end. *)
Definition is_maximal_run (del : string_view) (s t : string_view) : Prop :=
  t ≠ [] ∧ Forall (fun c => c ∉ del) t ∧
  ∃ pre post, s = pre ++ t ++ post ∧
    (pre = [] ∨ ∃ p d, pre = p ++ [d] ∧ d ∈ del) ∧
    (post = [] ∨ ∃ d q, post = d :: q ∧ d ∈ del).

(** The text ends in a delimiter that does not directly follow a token byte. *)
Definition ends_in_stray_delimiter (del : string_view) (s : string_view) : bool :=
  match reverse s with
  | [] => false
  | c :: [] => bool_decide (c ∈ del)
  | c :: c' :: _ => bool_decide (c ∈ del) && bool_decide (c' ∈ del)
  end.

(** The hash function of the specification, over the integers:
    [((1 + f) * a + b) mod P]. *)
Definition linear_hash (a b f : Z) : Z := ((1 + f) * a + b) mod kHashPrime.

(** [sig] is the MinHash signature of [S] under [h]: one slot per hash
    function, holding the least hash of a member of [S], or the sentinel when
    [S] is empty. *)
Definition is_minhash_signature (hash : Z -> Z -> Z -> Z) (h : MinHasher)
    (S : gset Z) (sig : list Z) : Prop :=
  length sig = num_hashes_ h ∧
  ∀ (i : nat) a b, a_ h !! i = Some a → b_ h !! i = Some b →
    (S = ∅ → sig !! i = Some kHashPrime) ∧
    (S ≠ ∅ → ∃ f, f ∈ S ∧ sig !! i = Some (hash a b f) ∧
                  ∀ g, g ∈ S → hash a b f <= hash a b g).

(** [r] is the report of the pair [(i, j)]: the estimated distance of the two
    documents is strictly below the threshold and [r] carries one minus it. *)
Definition is_report_of (signature : string_view -> outcome (list Z))
    (threshold : double) (docs : list string_view) (i j : nat)
    (r : DuplicatePairReport) : Prop :=
  ∃ di dj si sj dist,
    docs !! i = Some di ∧ docs !! j = Some dj ∧
    signature di = Ok si ∧ signature dj = Ok sj ∧
    jaccard_distance si sj = Ok dist ∧
    dbl_lt dist threshold = true ∧
    r = mkReport i j (dbl_sub dbl_one dist) di dj.

(** The class invariant established by the constructor of [MinHasher]. *)
Definition MinHasher_sized (h : MinHasher) : Prop :=
  length (a_ h) = num_hashes_ h ∧ length (b_ h) = num_hashes_ h.

Definition MinHasher_wf (h : MinHasher) : Prop :=
  MinHasher_sized h ∧
  Forall (fun a => 1 <= a <= kHashPrime - 1) (a_ h) ∧
  Forall (fun b => 0 <= b <= kHashPrime - 1) (b_ h).

(** What the element type of [a_] and [b_] guarantees: every coefficient is
    a [uint32_t]. *)
Definition MinHasher_uint32 (h : MinHasher) : Prop :=
  Forall (fun a => 0 <= a < 2 ^ 32) (a_ h) ∧ Forall (fun b => 0 <= b < 2 ^ 32) (b_ h).

(** The bytes hashed for a window: every token followed by the separator. *)
Definition ngram_key (window : list string_view) : string_view :=
  concat ((fun w => w ++ ["_"%char]) <$> window).

(** The feature index [extract_features] inserts for a full window. *)
Definition feature_index (hash : string_view -> Z -> Z) (num_features : Z)
    (window : list string_view) : Z :=
  u32 (hash (ngram_key window) 0) mod num_features.

(** The windows of [n] consecutive tokens of a token sequence, in order. *)
Definition shingles (n : nat) (tokens : list string_view) : list (list string_view) :=
  (fun i => take n (drop i tokens)) <$> seq 0 (length tokens + 1 - n).

(** The same deduplicator with another threshold. *)
Definition with_threshold (d : Deduplicator) (threshold : double) : Deduplicator :=
  mkDeduplicator (ngrams_ d) (num_features_ d) threshold (nonalnum_ d) (hasher_ d).

(** The order of the reports: by first index, then by second. *)
Definition report_before (r1 r2 : DuplicatePairReport) : Prop :=
  (rep_i r1 < rep_i r2)%nat ∨ (rep_i r1 = rep_i r2 ∧ (rep_j r1 < rep_j r2)%nat).

(** ** Instances used to evaluate the model *)

(** A linear congruential engine standing in for <random>. *)
Definition lcg_seed (seed : Z) : Z := seed mod 2 ^ 31.
Definition lcg_draw (lo hi : Z) (rng : Z) : Z * Z :=
  let rng := (1103515245 * rng + 12345) mod 2 ^ 31 in
  (lo + rng mod (hi - lo + 1), rng).

(** A heap counted in free bytes standing in for the allocator, and the
    [max_size()] of libstdc++ on a 64-bit target. *)
Definition free_bytes_allocate (free : Z) (n : Z) : option Z :=
  if bool_decide (n <= free) then Some (free - n) else None.
Definition max_size_64 : Z := 2 ^ 61 - 1.

(** A byte-sum hash standing in for MurmurHash3. *)
Definition bytesum_hash (key : string_view) (seed : Z) : Z :=
  fold_left (fun acc c => (31 * acc + int_of_char c) mod 2 ^ 32) key seed.

Definition sv (s : string) : string_view := list_ascii_of_string s.

(** A family of two hash functions and the configuration of [main] around it. *)
Definition two_hashes : MinHasher := mkMinHasher 2 [3; 5] [0; 7].
Definition plain_hash : MinHasher := mkMinHasher 1 [1] [0].
Definition steep_hash : MinHasher := mkMinHasher 1 [2038074742] [0].

(** The doubles nearest to 0.3 and 2.0. *)
Definition dbl_0_3 : double := S754_finite false 5404319552844595 (-54).

Definition small_dedup : Deduplicator :=
  mkDeduplicator 3 262144 dbl_0_3 build_nonalnum two_hashes.
Definition fox : string_view := sv "The quick brown fox jumps over the lazy dog".
Definition others : string_view := sv "different than the others".

(** * Properties *)

(** ** binary64 arithmetic *)

Lemma digits2_pos_size p : digits2_pos p = Pos.size p.
Proof. induction p; simpl; congruence. Qed.

Lemma digits2_pos_bounds p :
  2 ^ (Z.pos (digits2_pos p) - 1) <= Z.pos p < 2 ^ Z.pos (digits2_pos p).
Proof.
  rewrite digits2_pos_size. split.
  - pose proof (Pos.size_le p) as H.
    assert (Z.pos (2 ^ Pos.size p) <= Z.pos p~0) by exact H.  
    rewrite Pos2Z.inj_pow in H0.
    replace (Z.pos (Pos.size p)) with (Z.succ (Z.pos (Pos.size p) - 1)) in H0 by lia.
    rewrite Z.pow_succ_r in H0 by lia. lia.
  - pose proof (Pos.size_gt p) as H.
    assert (Z.pos p < Z.pos (2 ^ Pos.size p)) by exact H.
    now rewrite Pos2Z.inj_pow in H0.
Qed.

Lemma digits2_pos_le p B : 0 <= B -> Z.pos p < 2 ^ B -> Z.pos (digits2_pos p) <= B.
Proof.
  intros HB Hp. destruct (digits2_pos_bounds p) as [Hlo _].
  destruct (Z_lt_le_dec B (Z.pos (digits2_pos p))) as [Hlt|]; [|done].
  exfalso. assert (2 ^ B <= 2 ^ (Z.pos (digits2_pos p) - 1)) by (apply Z.pow_le_mono_r; lia).
  lia.
Qed.

Lemma shr_1_m mrs : 0 <= shr_m mrs -> shr_m (shr_1 mrs) = shr_m mrs / 2.
Proof.
  destruct mrs as [m r s]; simpl. intros Hm.
  destruct m as [|[p|p|]|]; simpl; try reflexivity; try lia.
  - apply Z.div_unique with 1; lia.
  - apply Z.div_unique with 0; lia.
Qed.

Lemma iter_pos_shr_1_m p : forall mrs,
  0 <= shr_m mrs -> shr_m (SpecFloat.iter_pos shr_1 p mrs) = shr_m mrs / 2 ^ Z.pos p.
Proof.
  induction p as [p IH|p IH|]; intros mrs Hm; simpl.
  - assert (H1 : 0 <= shr_m (shr_1 mrs)) by (rewrite shr_1_m by done; apply Z.div_pos; lia).
    assert (H2 : 0 <= shr_m (SpecFloat.iter_pos shr_1 p (shr_1 mrs))).
    { rewrite IH by done. apply Z.div_pos; lia. }
    rewrite IH, IH, shr_1_m by done.
    rewrite !Z.div_div by lia. f_equal.
    replace (Z.pos p~1) with (1 + Z.pos p + Z.pos p) by lia.
    rewrite !Z.pow_add_r, Z.pow_1_r by lia. ring.
  - assert (H2 : 0 <= shr_m (SpecFloat.iter_pos shr_1 p mrs)).
    { rewrite IH by done. apply Z.div_pos; lia. }
    rewrite IH, IH by done. rewrite Z.div_div by lia. f_equal.
    replace (Z.pos p~0) with (Z.pos p + Z.pos p) by lia.
    rewrite Z.pow_add_r by lia. done.
  - rewrite shr_1_m by done. done.
Qed.

Lemma shr_m_spec mrs e n :
  0 <= shr_m mrs ->
  shr_m (fst (shr mrs e n)) = (if decide (0 < n) then shr_m mrs / 2 ^ n else shr_m mrs) /\
  snd (shr mrs e n) = (if decide (0 < n) then e + n else e).
Proof.
  intros Hm.
  destruct (decide (0 < n)) as [Hn|Hn]; destruct n as [|p|p]; try lia; try done.
  simpl. split; [|done]. by apply iter_pos_shr_1_m.
Qed.

Lemma shr_record_of_loc_m m l : shr_m (shr_record_of_loc m l) = m.
Proof. by destruct l as [|[]]. Qed.

Lemma round_nearest_even_bounds m l :
  m <= round_nearest_even m l <= m + 1.
Proof. destruct l as [|[]]; simpl; try lia. destruct (Z.even m); lia. Qed.

(** The exponent function of binary64 above the subnormal range. *)
Lemma fexp_double d e : -1074 <= e -> 0 <= d ->
  fexp 53 1024 (d + e) - e = Z.max (d - 53) (-1074 - e).
Proof. unfold fexp, emin. lia. Qed.

Lemma shr_fexp_spec m e l :
  0 < m -> -1074 <= e ->
  let d := Zdigits2 m in
  let r := shr_fexp 53 1024 m e l in
  shr_m (fst r) = (if decide (53 < d) then m / 2 ^ (d - 53) else m) /\
  snd r = (if decide (53 < d) then e + (d - 53) else e).
Proof.
  intros Hm He d r. subst r. unfold shr_fexp.
  assert (Hd : 0 < d) by (destruct m; simpl in *; lia).
  fold d. rewrite fexp_double by lia.
  destruct (shr_m_spec (shr_record_of_loc m l) e (Z.max (d - 53) (-1074 - e)))
    as (H1 & H2); [rewrite shr_record_of_loc_m; lia|].
  rewrite H1, H2, shr_record_of_loc_m.
  repeat case_decide; try lia; split; try done; f_equal; try lia.
  f_equal. lia.
Qed.

Lemma binary_round_aux_finite sx m e l B :
  0 < m < 2 ^ B -> 0 <= B -> -1074 <= e -> e + Z.max (B - 53) 0 + 1 <= 971 ->
  exists m' e', binary_round_aux 53 1024 sx m e l = S754_finite sx m' e'.
Proof.
  intros [Hm HmB] HB He Hhi. unfold binary_round_aux.
  destruct (shr_fexp_spec m e l ltac:(lia) He) as [Hm1 He1].
  destruct (shr_fexp 53 1024 m e l) as [mrs1 e1]. simpl in Hm1, He1.
  destruct m as [|p|]; try lia. simpl in Hm1, He1.
  pose proof (digits2_pos_bounds p) as [Hlo Hhi'].
  pose proof (digits2_pos_le p B HB HmB) as HdB.
  set (d := Z.pos (digits2_pos p)) in *.
  assert (Hm1b : 0 < shr_m mrs1 < 2 ^ 53 /\ (53 < d -> 2 ^ 52 <= shr_m mrs1)).
  { rewrite Hm1. case_decide.
    - assert (Z.pos p = Z.pos p / 2 ^ (d - 53) * 2 ^ (d - 53) + Z.pos p mod 2 ^ (d - 53)).
      { rewrite Z.mul_comm. apply Z.div_mod. lia. }
      assert (2 ^ d = 2 ^ 53 * 2 ^ (d - 53)).
      { rewrite <- Z.pow_add_r by lia. f_equal. lia. }
      assert (2 ^ (d - 1) = 2 ^ 52 * 2 ^ (d - 53)).
      { rewrite <- Z.pow_add_r by lia. f_equal. lia. }
      assert (0 < 2 ^ (d - 53)) by (apply Z.pow_pos_nonneg; lia).
      pose proof (Z.mod_pos_bound (Z.pos p) (2 ^ (d - 53)) ltac:(lia)).
      split; [split|intros _]; nia.
    - split; [|lia]. split; [lia|].
      assert (2 ^ d <= 2 ^ 53) by (apply Z.pow_le_mono_r; lia). lia. }
  set (m2 := round_nearest_even (shr_m mrs1) (loc_of_shr_record mrs1)).
  pose proof (round_nearest_even_bounds (shr_m mrs1) (loc_of_shr_record mrs1)) as Hr.
  fold m2 in Hr.
  assert (He1b : -1074 <= e1 <= e + Z.max (B - 53) 0) by (rewrite He1; case_decide; lia).
  destruct (shr_fexp_spec m2 e1 loc_Exact ltac:(lia) ltac:(lia)) as [Hm3 He3].
  destruct (shr_fexp 53 1024 m2 e1 loc_Exact) as [mrs3 e3]. simpl in Hm3, He3.
  assert (Hm2 : 0 < m2 <= 2 ^ 53) by lia.
  destruct m2 as [|p2|] eqn:Em2; try lia. simpl in Hm3, He3.
  pose proof (digits2_pos_bounds p2) as [Hlo2 Hhi2].
  pose proof (digits2_pos_le p2 54 ltac:(lia) ltac:(change (2^54) with (2 * 2^53); lia)) as Hd2.
  set (d2 := Z.pos (digits2_pos p2)) in *.
  assert (Hm3b : 0 < shr_m mrs3 /\ e3 <= e1 + 1).
  { rewrite Hm3, He3. case_decide.
    - assert (d2 = 54) by lia. replace (d2 - 53) with 1 by lia.
      assert (2 ^ 53 <= Z.pos p2) by (replace 53 with (d2 - 1) by lia; done).
      split; [|lia]. apply Z.div_str_pos. change (2 ^ 1) with 2. lia.
    - lia. }
  destruct (shr_m mrs3) as [|p3|] eqn:E3; try lia.
  replace (e3 <=? 1024 - 53) with true by (symmetry; apply Z.leb_le; lia).
  eauto.
Qed.

Lemma Pos_iter_xO p k : Z.pos (Pos.iter xO p k) = Z.pos p * 2 ^ Z.pos k.
Proof.
  induction k as [|k IH] using Pos.peano_ind.
  - simpl. lia.
  - rewrite Pos.iter_succ, Pos2Z.inj_xO, IH, Pos2Z.inj_succ, Z.pow_succ_r by lia. ring.
Qed.

Lemma double_of_size_t_finite n :
  0 < n < 2 ^ 64 -> exists m e, double_of_size_t n = S754_finite false m e.
Proof.
  intros [Hn Hn64]. destruct n as [|p|]; try lia.
  unfold double_of_size_t, binary_normalize, binary_round.
  pose proof (digits2_pos_bounds p) as [Hlo Hhi].
  pose proof (digits2_pos_le p 64 ltac:(lia) Hn64) as Hd.
  set (d := Z.pos (digits2_pos p)) in *.
  assert (Hf : fexp 53 1024 (d + 0) = d - 53) by (unfold fexp, emin; lia).
  rewrite Hf. unfold shl_align.
  destruct (d - 53 - 0) as [|k|k] eqn:Ek.
  - apply binary_round_aux_finite with (B := 64); lia.
  - apply binary_round_aux_finite with (B := 64); lia.
  - apply binary_round_aux_finite with (B := 53); try lia.
    rewrite Pos_iter_xO. split; [lia|].
    assert (2 ^ 53 = 2 ^ d * 2 ^ Z.pos k).
    { rewrite <- Z.pow_add_r by lia. f_equal. lia. }
    assert (0 < 2 ^ Z.pos k) by (apply Z.pow_pos_nonneg; lia). nia.
Qed.

Lemma dbl_div_self s m e :
  dbl_div (S754_finite s m e) (S754_finite s m e) = dbl_one.
Proof.
  unfold dbl_div, SFdiv, SFdiv_core_binary.
  rewrite !Z.sub_diag. change (fexp 53 1024 0) with (-53).
  change (Z.min (-53) 0) with (-53). change (0 - -53) with 53.
  cbv beta iota zeta.
  assert (H : Z.div_eucl (Z.shiftl (Z.pos m) 53) (Z.pos m) = (2 ^ 53, 0)).
  { rewrite Z.shiftl_mul_pow2 by lia.
    pose proof (Z_div_mod (Z.pos m * 2 ^ 53) (Z.pos m) ltac:(lia)) as Hdm.
    destruct (Z.div_eucl (Z.pos m * 2 ^ 53) (Z.pos m)) as [q r].
    destruct Hdm as [Heq Hr]. assert (q = 2 ^ 53) by nia. f_equal; lia. }
  rewrite H. unfold new_location.
  destruct s; destruct (Z.even (Z.pos m)); vm_compute; reflexivity.
Qed.

Lemma binary_round_aux_not_nan sx m e l :
  0 <= m -> binary_round_aux 53 1024 sx m e l <> S754_nan.
Proof.
  intros Hm. unfold binary_round_aux, shr_fexp.
  pose proof (shr_m_spec (shr_record_of_loc m l) e
    (fexp 53 1024 (Zdigits2 m + e) - e)) as H1.
  rewrite shr_record_of_loc_m in H1. specialize (H1 Hm).
  destruct (shr _ e _) as [mrs1 e1]. simpl in H1. destruct H1 as [H1 _].
  assert (0 <= shr_m mrs1).
  { rewrite H1. case_decide; [apply Z.div_pos; [lia|apply Z.pow_pos_nonneg; lia]|lia]. }
  pose proof (round_nearest_even_bounds (shr_m mrs1) (loc_of_shr_record mrs1)) as Hr.
  set (m2 := round_nearest_even _ _) in *.
  pose proof (shr_m_spec (shr_record_of_loc m2 loc_Exact) e1
    (fexp 53 1024 (Zdigits2 m2 + e1) - e1)) as H3.
  rewrite shr_record_of_loc_m in H3. specialize (H3 ltac:(lia)).
  destruct (shr _ e1 _) as [mrs3 e3]. simpl in H3. destruct H3 as [H3 _].
  assert (0 <= shr_m mrs3).
  { rewrite H3. case_decide; [apply Z.div_pos; [lia|apply Z.pow_pos_nonneg; lia]|lia]. }
  destruct (shr_m mrs3); try lia; try done. by destruct (_ <=? _).
Qed.

Lemma binary_round_not_nan sx m e : binary_round 53 1024 sx m e <> S754_nan.
Proof.
  unfold binary_round. destruct (shl_align _ _ _) as [mz ez].
  apply binary_round_aux_not_nan. lia.
Qed.

Lemma binary_normalize_not_nan m e sz : binary_normalize 53 1024 m e sz <> S754_nan.
Proof. destruct m; simpl; try done; apply binary_round_not_nan. Qed.

Lemma double_of_size_t_not_nan n : double_of_size_t n <> S754_nan.
Proof. apply binary_normalize_not_nan. Qed.

Lemma dbl_div_not_nan x s m e :
  x <> S754_nan -> dbl_div x (S754_finite s m e) <> S754_nan.
Proof.
  intros Hx. destruct x as [sx|sx| |sx mx ex]; try done.
  unfold dbl_div, SFdiv, SFdiv_core_binary.
  set (e' := Z.min _ _). set (m' := match ex - e - e' with 0 => _ | _ => _ end).
  assert (Hm' : 0 <= m').
  { subst m'. destruct (ex - e - e'); try lia. rewrite Z.shiftl_mul_pow2 by lia.
    apply Z.mul_nonneg_nonneg; [lia|]. apply Z.pow_nonneg. lia. }
  pose proof (Z_div_mod m' (Z.pos m) ltac:(lia)) as Hdm.
  destruct (Z.div_eucl m' (Z.pos m)) as [q r]. destruct Hdm as [Hq Hr].
  apply binary_round_aux_not_nan. nia.
Qed.

Lemma dbl_sub_one_not_nan q : q <> S754_nan -> dbl_sub dbl_one q <> S754_nan.
Proof.
  intros Hq. destruct q as [sq|sq| |sq mq eq]; try done.
  unfold dbl_sub, dbl_one, SFsub. apply binary_normalize_not_nan.
Qed.

Lemma dbl_lt_irrefl x y : dbl_eq x y = true -> dbl_lt x y = false.
Proof. unfold dbl_eq, dbl_lt, SFeqb, SFltb. by destruct (SFcompare x y) as [[]|]. Qed.

Lemma dbl_lt_same x : dbl_lt x x = false.
Proof.
  unfold dbl_lt, SFltb. destruct x as [s|s| |s m e]; simpl; try done.
  - by destruct s.
  - rewrite Z.compare_refl, Pos.compare_cont_refl. by destruct s.
Qed.

(** ** Loops in the outcome monad *)

(** Two results of the same computation are the same. *)
Ltac same_outcome :=
  repeat match goal with
         | H1 : ?m = Ok _, H2 : ?m = Ok _ |- _ =>
             rewrite H1 in H2; injection H2 as <-
         | H1 : ?m = Some _, H2 : ?m = Some _ |- _ =>
             rewrite H1 in H2; injection H2 as <-
         end.

Lemma for_each_app {A S} (body : S -> A -> outcome S) s l1 l2 :
  for_each body s (l1 ++ l2) = (s' ← for_each body s l1; for_each body s' l2).
Proof.
  revert s. induction l1 as [|x l1 IH]; intros s; simpl; [done|].
  destruct (body s x); simpl; auto.
Qed.

Lemma for_each_ext {A S} (f g : S -> A -> outcome S) s l :
  (forall s x, x ∈ l -> f s x = g s x) -> for_each f s l = for_each g s l.
Proof.
  revert s. induction l as [|x l IH]; intros s Hfg; simpl; [done|].
  rewrite Hfg by left. destruct (g s x); simpl; try done.
  apply IH. intros. apply Hfg. by right.
Qed.

Lemma vec_at_Ok {A} (v : list A) i x : vec_at v i = Ok x <-> v !! i = Some x.
Proof. unfold vec_at. destruct (v !! i); split; intros; simplify_eq; done. Qed.

Lemma vec_at_lt {A} (v : list A) i :
  (i < length v)%nat -> exists x, vec_at v i = Ok x /\ v !! i = Some x.
Proof.
  intros Hi. destruct (lookup_lt_is_Some_2 v i Hi) as [x Hx].
  exists x. split; [by apply vec_at_Ok|done].
Qed.

(** ** jaccard_distance *)

Lemma count_body_self s m k :
  (k < length s)%nat -> count_body s s m k = Ok (u64 (m + 1)).
Proof.
  intros Hk. unfold count_body.
  destruct (vec_at_lt s k Hk) as (x & -> & _). cbn.
  by rewrite bool_decide_eq_true_2.
Qed.

Lemma count_body_defined a b m k :
  (k < length a)%nat -> (k < length b)%nat -> exists m', count_body a b m k = Ok m'.
Proof.
  intros Ha Hb. unfold count_body.
  destruct (vec_at_lt a k Ha) as (x & -> & _).
  destruct (vec_at_lt b k Hb) as (y & -> & _). cbn. eauto.
Qed.

Lemma count_loop_self s n : forall k m,
  (k + n <= length s)%nat -> 0 <= m -> m + Z.of_nat n < 2 ^ 64 ->
  for_each (count_body s s) m (seq k n) = Ok (m + Z.of_nat n).
Proof.
  induction n as [|n IH]; intros k m Hk Hm Hn; cbn [for_each seq].
  - f_equal. lia.
  - rewrite count_body_self by lia. cbn [mbind outcome_bind].
    assert (u64 (m + 1) = m + 1) as -> by (unfold u64; apply Z.mod_small; lia).
    rewrite IH by lia. f_equal. lia.
Qed.

Lemma count_loop_defined a b n : forall k m,
  (length a <= length b)%nat -> (k + n <= length a)%nat ->
  exists m', for_each (count_body a b) m (seq k n) = Ok m'.
Proof.
  induction n as [|n IH]; intros k m Hab Hk; cbn [for_each seq]; [eauto|].
  destruct (count_body_defined a b m k) as [m' ->]; [lia..|].
  cbn [mbind outcome_bind]. apply IH; lia.
Qed.

Lemma jaccard_distance_unfold a b :
  jaccard_distance a b =
  (matches ← for_each (count_body a b) 0 (seq 0 (length a));
   Ok (dbl_sub dbl_one
         (dbl_div (double_of_size_t matches)
                  (double_of_size_t (Z.of_nat (length a)))))).
Proof. reflexivity. Qed.

Lemma jaccard_distance_self s :
  0 < Z.of_nat (length s) < 2 ^ 64 -> jaccard_distance s s = Ok dbl_zero.
Proof.
  intros Hs. rewrite jaccard_distance_unfold.
  rewrite count_loop_self by lia. cbn [mbind outcome_bind]. rewrite Z.add_0_l.
  destruct (double_of_size_t_finite (Z.of_nat (length s)) Hs) as (m & e & ->).
  by rewrite dbl_div_self.
Qed.

Lemma jaccard_distance_defined a b :
  (length a <= length b)%nat -> exists d, jaccard_distance a b = Ok d.
Proof.
  intros Hab. rewrite jaccard_distance_unfold.
  destruct (count_loop_defined a b (length a) 0%nat 0 Hab ltac:(lia)) as [m ->].
  cbn [mbind outcome_bind]. eauto.
Qed.

Lemma jaccard_distance_not_nan a b d :
  0 < Z.of_nat (length a) < 2 ^ 64 ->
  jaccard_distance a b = Ok d -> d <> S754_nan.
Proof.
  intros Ha. rewrite jaccard_distance_unfold.
  destruct (for_each _ _ _) as [m| |]; cbn [mbind outcome_bind]; try done.
  intros [= <-].
  destruct (double_of_size_t_finite _ Ha) as (mn & en & ->).
  apply dbl_sub_one_not_nan, dbl_div_not_nan, double_of_size_t_not_nan.
Qed.

(** ** compute_signature *)

Lemma slot_hash_lt a b f : 0 <= slot_hash a b f < kHashPrime.
Proof.
  unfold slot_hash, u32.
  pose proof (Z.mod_pos_bound (u64 (u64 (u64 (1 + f) * a) + b)) kHashPrime
                ltac:(done)) as H.
  rewrite Z.mod_small; [done|]. unfold kHashPrime in *. lia.
Qed.

Lemma slot_hash_linear a b f :
  0 <= a < 2 ^ 32 -> 0 <= b < 2 ^ 32 -> 0 <= f < 2 ^ 32 ->
  slot_hash a b f = linear_hash a b f.
Proof.
  intros Ha Hb Hf. unfold slot_hash, linear_hash, u64.
  assert ((1 + f) * a + b < 2 ^ 64) by nia.
  rewrite (Z.mod_small (1 + f)) by lia.
  rewrite (Z.mod_small ((1 + f) * a)) by nia.
  rewrite (Z.mod_small ((1 + f) * a + b)) by nia.
  unfold u32. apply Z.mod_small.
  pose proof (Z.mod_pos_bound ((1 + f) * a + b) kHashPrime ltac:(done)).
  unfold kHashPrime in *. lia.
Qed.

Lemma update_slot_Ok h idx sig i :
  MinHasher_sized h -> length sig = num_hashes_ h -> (i < num_hashes_ h)%nat ->
  exists a b s, a_ h !! i = Some a /\ b_ h !! i = Some b /\ sig !! i = Some s /\
    update_slot h idx sig i = Ok (<[i := Z.min s (slot_hash a b idx)]> sig).
Proof.
  intros [Ha Hb] Hs Hi. unfold update_slot.
  destruct (vec_at_lt (a_ h) i ltac:(lia)) as (a & -> & Hia).
  destruct (vec_at_lt (b_ h) i ltac:(lia)) as (b & -> & Hib).
  destruct (vec_at_lt sig i ltac:(lia)) as (x & -> & Hix).
  exists a, b, x. done.
Qed.

Lemma update_slots_spec h idx sig k :
  MinHasher_sized h -> length sig = num_hashes_ h -> (k <= num_hashes_ h)%nat ->
  exists sig', for_each (update_slot h idx) sig (seq 0 k) = Ok sig' /\
    length sig' = num_hashes_ h /\
    forall i : nat,
      ((i < k)%nat -> forall a b s, a_ h !! i = Some a -> b_ h !! i = Some b ->
         sig !! i = Some s -> sig' !! i = Some (Z.min s (slot_hash a b idx))) /\
      ((k <= i)%nat -> sig' !! i = sig !! i).
Proof.
  intros Hh Hs. induction k as [|k IH]; intros Hk.
  - exists sig. split; [done|]. split; [done|]. intros i. split; [lia|done].
  - destruct IH as (sig1 & H1 & Hl1 & Hi1); [lia|].
    rewrite seq_S, for_each_app, H1. cbn [mbind outcome_bind for_each Nat.add].
    destruct (update_slot_Ok h idx sig1 k Hh Hl1 ltac:(lia))
      as (a & b & s & Ha & Hb & Hsk & ->).
    cbn [mbind outcome_bind]. eexists. split; [done|].
    split; [by rewrite length_insert|]. intros i. split.
    + intros Hi a' b' s' Ha' Hb' Hs'.
      destruct (decide (i = k)) as [->|Hne].
      * rewrite list_lookup_insert_eq by lia.
        destruct (Hi1 k) as [_ Hge]. rewrite Hge in Hsk by lia. congruence.
      * rewrite list_lookup_insert_ne by done.
        destruct (Hi1 i) as [Hlt _]. apply Hlt; [lia|done..].
    + intros Hi. rewrite list_lookup_insert_ne by lia.
      destruct (Hi1 i) as [_ Hge]. apply Hge. lia.
Qed.

Lemma signature_loop_spec h (l : list Z) : forall sig,
  MinHasher_sized h -> length sig = num_hashes_ h ->
  exists sig',
    for_each (fun sig idx => for_each (update_slot h idx) sig (seq 0 (num_hashes_ h)))
      sig l = Ok sig' /\
    length sig' = num_hashes_ h /\
    forall (i : nat) a b s, a_ h !! i = Some a -> b_ h !! i = Some b ->
      sig !! i = Some s ->
      exists v, sig' !! i = Some v /\ v <= s /\
        (forall g, g ∈ l -> v <= slot_hash a b g) /\
        (v = s \/ exists f, f ∈ l /\ v = slot_hash a b f).
Proof.
  induction l as [|f l IH]; intros sig Hh Hs; cbn [for_each].
  - exists sig. split; [done|]. split; [done|]. intros i a b s _ _ Hi.
    exists s. split; [done|]. split; [lia|]. split; [|by left].
    intros g Hg. by apply elem_of_nil in Hg.
  - destruct (update_slots_spec h f sig (num_hashes_ h) Hh Hs ltac:(lia))
      as (sig1 & -> & Hl1 & Hi1). cbn [mbind outcome_bind].
    destruct (IH sig1 Hh Hl1) as (sig2 & -> & Hl2 & Hi2).
    exists sig2. split; [done|]. split; [done|]. intros i a b s Ha Hb Hsi.
    assert (Hi : (i < num_hashes_ h)%nat).
    { apply lookup_lt_Some in Hsi. lia. }
    destruct (Hi1 i) as [Hlt _]. specialize (Hlt Hi a b s Ha Hb Hsi).
    destruct (Hi2 i a b _ Ha Hb Hlt) as (v & Hv & Hle & Hall & Hex).
    exists v. split; [done|]. split; [lia|]. split.
    + intros g Hg. apply elem_of_cons in Hg as [->|Hg]; [lia|by apply Hall].
    + destruct Hex as [->|(g & Hg & ->)].
      * destruct (Z.min_spec s (slot_hash a b f)) as [[_ ->]|[_ ->]]; [by left|].
        right. exists f. split; [left|done].
      * right. exists g. split; [by right|done].
Qed.

Lemma is_minhash_signature_unique hash h S sig1 sig2 :
  MinHasher_sized h ->
  is_minhash_signature hash h S sig1 -> is_minhash_signature hash h S sig2 ->
  sig1 = sig2.
Proof.
  intros [Ha Hb] [Hl1 H1] [Hl2 H2]. apply list_eq. intros i.
  destruct (decide (i < num_hashes_ h)%nat) as [Hi|Hi].
  - destruct (lookup_lt_is_Some_2 (a_ h) i ltac:(lia)) as [a Hia].
    destruct (lookup_lt_is_Some_2 (b_ h) i ltac:(lia)) as [b Hib].
    destruct (H1 i a b Hia Hib) as [He1 Hn1], (H2 i a b Hia Hib) as [He2 Hn2].
    destruct (decide (S = ∅)) as [HS|HS].
    + by rewrite He1, He2.
    + destruct (Hn1 HS) as (f1 & Hf1 & -> & Hm1), (Hn2 HS) as (f2 & Hf2 & -> & Hm2).
      f_equal. specialize (Hm1 f2 Hf2). specialize (Hm2 f1 Hf1). lia.
  - rewrite !lookup_ge_None_2; [done|lia..].
Qed.

Lemma compute_signature_defined bucket_order h S :
  MinHasher_sized h ->
  exists sig, compute_signature bucket_order h S = Ok sig /\
    length sig = num_hashes_ h.
Proof.
  intros Hh. unfold compute_signature.
  destruct (signature_loop_spec h (bucket_order S)
              (replicate (num_hashes_ h) kHashPrime) Hh
              ltac:(by rewrite length_replicate)) as (sig & -> & Hl & _).
  by exists sig.
Qed.

Lemma compute_signature_length bucket_order h S sig :
  MinHasher_sized h -> compute_signature bucket_order h S = Ok sig ->
  length sig = num_hashes_ h.
Proof.
  intros Hh Hsig.
  destruct (compute_signature_defined bucket_order h S Hh) as (sig' & H' & Hl).
  congruence.
Qed.

Section SignatureFacts.
Variable bucket_order : gset Z -> list Z.
Hypothesis bucket_order_visits : visits_each_once bucket_order.

Lemma elem_of_bucket_order S x : x ∈ bucket_order S <-> x ∈ S.
Proof. by rewrite (bucket_order_visits S), elem_of_elements. Qed.

Lemma compute_signature_spec h S :
  MinHasher_sized h ->
  exists sig, compute_signature bucket_order h S = Ok sig /\
    is_minhash_signature slot_hash h S sig.
Proof.
  intros Hh. unfold compute_signature.
  destruct (signature_loop_spec h (bucket_order S)
              (replicate (num_hashes_ h) kHashPrime) Hh
              ltac:(by rewrite length_replicate)) as (sig & -> & Hl & Hi).
  exists sig. split; [done|]. split; [done|]. intros i a b Ha Hb.
  assert (Hn : (i < num_hashes_ h)%nat).
  { apply lookup_lt_Some in Ha. destruct Hh. lia. }
  destruct (Hi i a b kHashPrime Ha Hb ltac:(by apply lookup_replicate_2))
    as (v & Hv & Hle & Hall & Hex).
  split.
  - intros ->. destruct Hex as [->|(f & Hf & _)]; [done|].
    apply elem_of_bucket_order in Hf. set_solver.
  - intros HS. destruct Hex as [->|(f & Hf & ->)].
    + apply set_choose_L in HS as [g Hg].
      apply elem_of_bucket_order in Hg. specialize (Hall g Hg).
      pose proof (slot_hash_lt a b g). lia.
    + exists f. split; [by apply elem_of_bucket_order|]. split; [done|].
      intros g Hg. apply Hall. by apply elem_of_bucket_order.
Qed.
End SignatureFacts.

(** ** The constructor of MinHasher *)

Section Construction.
Context {engine : Type}.
Variable mt19937 : Z -> engine.
Variable uniform_int_distribution : Z -> Z -> engine -> Z * engine.
(** [rand.dist.uni.int]: a draw lies in the closed range of the
    distribution. *)
Hypothesis draw_in_range : forall lo hi rng,
  lo <= hi -> lo <= fst (uniform_int_distribution lo hi rng) <= hi.

Local Abbreviation draw_pair :=
  (fun '(a, b, rng) i =>
    let '(va, rng) := uniform_int_distribution 1 (kHashPrime - 1) rng in
    let '(vb, rng) := uniform_int_distribution 0 (kHashPrime - 1) rng in
    (<[i := va]> a, <[i := vb]> b, rng)).

Lemma draw_loop_length n (l : list nat) : forall a b rng,
  length a = n -> length b = n ->
  exists a' b' rng', fold_left draw_pair l (a, b, rng) = (a', b', rng') /\
    length a' = n /\ length b' = n.
Proof.
  induction l as [|i l IH]; intros a b rng Ha Hb; cbn [fold_left].
  - by exists a, b, rng.
  - destruct (uniform_int_distribution 1 (kHashPrime - 1) rng) as [va rng2].
    destruct (uniform_int_distribution 0 (kHashPrime - 1) rng2) as [vb rng3].
    apply IH; by rewrite length_insert.
Qed.

Lemma MinHasher_ctor_sized num_hashes seed :
  MinHasher_sized (MinHasher_ctor mt19937 uniform_int_distribution num_hashes seed) /\
  num_hashes_ (MinHasher_ctor mt19937 uniform_int_distribution num_hashes seed)
  = num_hashes.
Proof.
  unfold MinHasher_ctor.
  destruct (draw_loop_length num_hashes (seq 0 num_hashes)
              (replicate num_hashes 0) (replicate num_hashes 0) (mt19937 seed))
    as (a & b & rng & Hfold & Ha & Hb); [by rewrite length_replicate..|].
  rewrite Hfold. done.
Qed.

Lemma draw_loop_spec n a b rng k :
  length a = n -> length b = n -> (k <= n)%nat ->
  exists a' b' rng', fold_left draw_pair (seq 0 k) (a, b, rng) = (a', b', rng') /\
    length a' = n /\ length b' = n /\
    forall i : nat, (i < k)%nat ->
      (exists x, a' !! i = Some x /\ 1 <= x <= kHashPrime - 1) /\
      (exists y, b' !! i = Some y /\ 0 <= y <= kHashPrime - 1).
Proof.
  intros Ha Hb. induction k as [|k IH]; intros Hk.
  - exists a, b, rng. repeat split; try done; lia.
  - destruct IH as (a1 & b1 & rng1 & Hfold & Ha1 & Hb1 & Hi1); [lia|].
    rewrite seq_S, fold_left_app, Hfold. cbn [fold_left Nat.add].
    pose proof (draw_in_range 1 (kHashPrime - 1) rng1 ltac:(done)) as Hva.
    destruct (uniform_int_distribution 1 (kHashPrime - 1) rng1) as [va rng2].
    pose proof (draw_in_range 0 (kHashPrime - 1) rng2 ltac:(done)) as Hvb.
    destruct (uniform_int_distribution 0 (kHashPrime - 1) rng2) as [vb rng3].
    cbn [fst] in Hva, Hvb.
    eexists _, _, _. split; [done|].
    split; [by rewrite length_insert|]. split; [by rewrite length_insert|].
    intros i Hi. destruct (decide (i = k)) as [->|Hne].
    + rewrite !list_lookup_insert_eq by lia. split; eexists; (split; [done|lia]).
    + rewrite !list_lookup_insert_ne by done. apply Hi1. lia.
Qed.

Lemma MinHasher_ctor_spec num_hashes seed :
  let h := MinHasher_ctor mt19937 uniform_int_distribution num_hashes seed in
  num_hashes_ h = num_hashes /\
  length (a_ h) = num_hashes /\ length (b_ h) = num_hashes /\
  forall i : nat, (i < num_hashes)%nat ->
    (exists x, a_ h !! i = Some x /\ 1 <= x <= kHashPrime - 1) /\
    (exists y, b_ h !! i = Some y /\ 0 <= y <= kHashPrime - 1).
Proof.
  unfold MinHasher_ctor.
  destruct (draw_loop_spec num_hashes (replicate num_hashes 0)
              (replicate num_hashes 0) (mt19937 seed) num_hashes)
    as (a & b & rng & Hfold & Ha & Hb & Hi);
    [by rewrite length_replicate..|lia|].
  rewrite Hfold. done.
Qed.

Lemma MinHasher_ctor_wf num_hashes seed :
  MinHasher_wf (MinHasher_ctor mt19937 uniform_int_distribution num_hashes seed).
Proof.
  destruct (MinHasher_ctor_spec num_hashes seed) as (Hn & Ha & Hb & Hi).
  set (h := MinHasher_ctor _ _ _ _) in *.
  split; [split; congruence|]. split; apply Forall_lookup; intros i x Hx.
  - destruct (Hi i) as [(x' & Hx' & ?) _]; [apply lookup_lt_Some in Hx; lia|].
    by simplify_eq.
  - destruct (Hi i) as [_ (x' & Hx' & ?)]; [apply lookup_lt_Some in Hx; lia|].
    by simplify_eq.
Qed.
End Construction.

(** ** TokenGen *)

Section Tokenizer.
Variable del : string_view.

Lemma find_first_of_None s :
  find_first_of s del = None <-> Forall (fun c => c ∉ del) s.
Proof.
  induction s as [|c s IH]; simpl; [by split|]. case_bool_decide as Hc.
  - split; [done|]. intros Hs%Forall_cons. tauto.
  - destruct (find_first_of s del); simpl; split; try done.
    + intros Hs%Forall_cons. destruct Hs as [_ Hs]. by apply IH in Hs.
    + intros _. constructor; [done|]. by apply IH.
Qed.

Lemma find_first_of_Some s n :
  find_first_of s del = Some n ->
  exists w d rest, s = w ++ d :: rest /\ length w = n /\
    Forall (fun c => c ∉ del) w /\ d ∈ del.
Proof.
  revert n. induction s as [|c s IH]; intros n; simpl; [done|].
  case_bool_decide as Hc.
  - intros [= <-]. by exists [], c, s.
  - destruct (find_first_of s del) as [k|]; simpl; [|done]. intros [= <-].
    destruct (IH k eq_refl) as (w & d & rest & -> & <- & Hw & Hd).
    exists (c :: w), d, rest. repeat split; try done. by constructor.
Qed.

Lemma find_first_of_app w d rest :
  Forall (fun c => c ∉ del) w -> d ∈ del ->
  find_first_of (w ++ d :: rest) del = Some (length w).
Proof.
  intros Hw Hd. induction Hw as [|c w Hc Hw IH]; simpl.
  - by rewrite bool_decide_eq_true_2.
  - rewrite bool_decide_eq_false_2 by done. by rewrite IH.
Qed.

(** Every text is a run without delimiters, possibly followed by a
    delimiter and the rest. *)
Lemma text_shape s :
  Forall (fun c => c ∉ del) s \/
  exists w d rest, s = w ++ d :: rest /\ Forall (fun c => c ∉ del) w /\ d ∈ del.
Proof.
  destruct (find_first_of s del) as [n|] eqn:E.
  - right. apply find_first_of_Some in E as (w & d & rest & ? & _ & ? & ?).
    by exists w, d, rest.
  - left. by apply find_first_of_None.
Qed.

(** One call of [operator()], by the shape of the unread input. *)
Lemma TokenGen_call_loop_plain fuel s :
  Forall (fun c => c ∉ del) s ->
  TokenGen_call_loop (S fuel) (mkTokenGen s del) = Ok (s, mkTokenGen [] del).
Proof.
  intros Hs. cbn [TokenGen_call_loop sv_ del_].
  apply find_first_of_None in Hs as ->. by destruct s.
Qed.

Lemma TokenGen_call_loop_word fuel w d rest :
  w <> [] -> Forall (fun c => c ∉ del) w -> d ∈ del ->
  TokenGen_call_loop (S fuel) (mkTokenGen (w ++ d :: rest) del)
  = Ok (w, mkTokenGen rest del).
Proof.
  intros Hne Hw Hd. cbn [TokenGen_call_loop sv_ del_].
  rewrite find_first_of_app by done. unfold remove_suffix, remove_prefix.
  rewrite length_app. cbn [length].
  replace (length w + S (length rest) - (length w + S (length rest) - length w))%nat
    with (length w) by lia.
  rewrite take_app_length, drop_app_add. cbn [drop]. rewrite drop_0.
  by destruct w.
Qed.

Lemma TokenGen_call_loop_last fuel d :
  d ∈ del ->
  TokenGen_call_loop (S fuel) (mkTokenGen [d] del) = Ok ([], mkTokenGen [] del).
Proof.
  intros Hd. cbn [TokenGen_call_loop sv_ del_ find_first_of].
  rewrite bool_decide_eq_true_2 by done. reflexivity.
Qed.

Lemma TokenGen_call_loop_skip fuel d c rest :
  d ∈ del ->
  TokenGen_call_loop (S fuel) (mkTokenGen (d :: c :: rest) del)
  = TokenGen_call_loop fuel (mkTokenGen (c :: rest) del).
Proof.
  intros Hd. cbn [TokenGen_call_loop sv_ del_ find_first_of].
  rewrite bool_decide_eq_true_2 by done.
  unfold remove_suffix, remove_prefix. rewrite Nat.sub_0_r, Nat.sub_diag.
  reflexivity.
Qed.

(** A call on unread input [s] returns, leaves the delimiters alone and,
    unless [s] is empty, consumes at least one byte; any fuel above the
    length of [s] gives the same result. *)
Lemma TokenGen_call_loop_total s : forall fuel,
  (length s < fuel)%nat ->
  exists t s', TokenGen_call_loop fuel (mkTokenGen s del) = Ok (t, mkTokenGen s' del) /\
    (length s' <= length s)%nat /\ (s <> [] -> (length s' < length s)%nat).
Proof.
  induction s as [|c s IH]; intros [|fuel] Hf; cbn [length] in *; try lia.
  - exists [], []. by rewrite TokenGen_call_loop_plain.
  - destruct (text_shape (c :: s)) as [Hs|(w & d & rest & E & Hw & Hd)].
    + exists (c :: s), []. rewrite TokenGen_call_loop_plain by done.
      cbn [length]. split; [done|]. split; intros; lia.
    + destruct w as [|x w].
      * simpl in E. injection E as -> ->.
        destruct rest as [|c rest].
        -- exists [], []. rewrite TokenGen_call_loop_last by done.
           cbn [length]. split; [done|]. split; intros; lia.
        -- rewrite TokenGen_call_loop_skip by done.
           destruct (IH fuel ltac:(lia)) as (t & s' & -> & Hle & Hlt).
           exists t, s'. split; [done|]. split; intros; lia.
      * exists (x :: w), rest. rewrite E.
        rewrite TokenGen_call_loop_word by done.
        apply (f_equal length) in E. rewrite length_app in E. cbn [length] in E.
        split; [done|]. split; intros; lia.
Qed.

Lemma TokenGen_call_loop_fuel s : forall fuel fuel',
  (length s < fuel)%nat -> (length s < fuel')%nat ->
  TokenGen_call_loop fuel (mkTokenGen s del)
  = TokenGen_call_loop fuel' (mkTokenGen s del).
Proof.
  induction s as [|c s IH]; intros [|fuel] [|fuel'] Hf Hf'; cbn [length] in *; try lia.
  - by rewrite !TokenGen_call_loop_plain.
  - destruct (text_shape (c :: s)) as [Hs|(w & d & rest & E & Hw & Hd)].
    + by rewrite !TokenGen_call_loop_plain.
    + destruct w as [|x w].
      * simpl in E. injection E as -> ->. destruct rest as [|c rest].
        -- by rewrite !TokenGen_call_loop_last.
        -- rewrite !TokenGen_call_loop_skip by done. apply IH; lia.
      * rewrite E. by rewrite !TokenGen_call_loop_word.
Qed.

Lemma TokenGen_call_total s :
  exists t s', TokenGen_call (mkTokenGen s del) = Ok (t, mkTokenGen s' del) /\
    (length s' <= length s)%nat /\ (s <> [] -> (length s' < length s)%nat).
Proof. apply TokenGen_call_loop_total. cbn. lia. Qed.

Lemma TokenGen_call_plain s :
  Forall (fun c => c ∉ del) s ->
  TokenGen_call (mkTokenGen s del) = Ok (s, mkTokenGen [] del).
Proof. apply TokenGen_call_loop_plain. Qed.

Lemma TokenGen_call_word w d rest :
  w <> [] -> Forall (fun c => c ∉ del) w -> d ∈ del ->
  TokenGen_call (mkTokenGen (w ++ d :: rest) del) = Ok (w, mkTokenGen rest del).
Proof. apply TokenGen_call_loop_word. Qed.

Lemma TokenGen_call_last d :
  d ∈ del -> TokenGen_call (mkTokenGen [d] del) = Ok ([], mkTokenGen [] del).
Proof. apply TokenGen_call_loop_last. Qed.

Lemma TokenGen_call_skip d c rest :
  d ∈ del ->
  TokenGen_call (mkTokenGen (d :: c :: rest) del)
  = TokenGen_call (mkTokenGen (c :: rest) del).
Proof.
  intros Hd. unfold TokenGen_call. cbn [sv_ length].
  by rewrite TokenGen_call_loop_skip.
Qed.

(** *** Pieces and runs *)

Lemma pieces_plain w : Forall (fun c => c ∉ del) w -> pieces del w = [w].
Proof.
  induction 1 as [|c w Hc Hw IH]; simpl; [done|].
  by rewrite bool_decide_eq_false_2, IH.
Qed.

Lemma pieces_app w d rest :
  Forall (fun c => c ∉ del) w -> d ∈ del ->
  pieces del (w ++ d :: rest) = w :: pieces del rest.
Proof.
  intros Hw Hd. induction Hw as [|c w Hc Hw IH]; simpl.
  - by rewrite bool_decide_eq_true_2.
  - by rewrite bool_decide_eq_false_2, IH.
Qed.

Lemma maximal_runs_plain w :
  w <> [] -> Forall (fun c => c ∉ del) w -> maximal_runs del w = [w].
Proof.
  intros Hne Hw. unfold maximal_runs. rewrite pieces_plain by done.
  by rewrite filter_cons_True.
Qed.

Lemma maximal_runs_nil : maximal_runs del [] = [].
Proof. done. Qed.

Lemma maximal_runs_word w d rest :
  w <> [] -> Forall (fun c => c ∉ del) w -> d ∈ del ->
  maximal_runs del (w ++ d :: rest) = w :: maximal_runs del rest.
Proof.
  intros Hne Hw Hd. unfold maximal_runs. rewrite pieces_app by done.
  by rewrite filter_cons_True.
Qed.

Lemma maximal_runs_skip d rest :
  d ∈ del -> maximal_runs del (d :: rest) = maximal_runs del rest.
Proof.
  intros Hd. unfold maximal_runs. cbn [pieces].
  rewrite bool_decide_eq_true_2 by done.
  by rewrite filter_cons_False by (intros Hn; by apply Hn).
Qed.

Lemma stray_app l1 c c' l2 :
  ends_in_stray_delimiter del (l1 ++ c :: c' :: l2)
  = ends_in_stray_delimiter del (c :: c' :: l2).
Proof.
  unfold ends_in_stray_delimiter. rewrite reverse_app.
  destruct (reverse (c :: c' :: l2)) as [|x [|y t]] eqn:E; try done.
  - apply (f_equal length) in E. rewrite length_reverse in E. done.
  - apply (f_equal length) in E. rewrite length_reverse in E. done.
Qed.

Lemma stray_cons_delim d c rest :
  d ∈ del ->
  ends_in_stray_delimiter del (d :: c :: rest)
  = ends_in_stray_delimiter del (c :: rest).
Proof.
  intros Hd. destruct rest as [|c' rest].
  - cbn. rewrite (bool_decide_eq_true_2 (d ∈ del)) by done.
    by rewrite andb_true_r.
  - apply (stray_app [d]).
Qed.

Lemma stray_word_end w d :
  w <> [] -> Forall (fun c => c ∉ del) w ->
  ends_in_stray_delimiter del (w ++ [d]) = false.
Proof.
  intros Hne Hw. unfold ends_in_stray_delimiter. rewrite reverse_snoc.
  destruct (reverse w) as [|c t] eqn:E.
  - apply (f_equal length) in E. rewrite length_reverse in E. by destruct w.
  - assert (c ∈ w) as Hc by (apply elem_of_reverse; rewrite E; left).
    rewrite Forall_forall in Hw. specialize (Hw c Hc).
    rewrite (bool_decide_eq_false_2 (c ∈ del)) by done. by rewrite andb_false_r.
Qed.

Lemma stray_plain w :
  Forall (fun c => c ∉ del) w -> ends_in_stray_delimiter del w = false.
Proof.
  intros Hw. unfold ends_in_stray_delimiter.
  destruct (reverse w) as [|c t] eqn:E; [done|].
  assert (c ∈ w) as Hc by (apply elem_of_reverse; rewrite E; left).
  rewrite Forall_forall in Hw. specialize (Hw c Hc).
  rewrite (bool_decide_eq_false_2 (c ∈ del)) by done. by destruct t.
Qed.

Lemma stray_word w d rest :
  w <> [] -> Forall (fun c => c ∉ del) w -> d ∈ del ->
  ends_in_stray_delimiter del (w ++ d :: rest) = ends_in_stray_delimiter del rest.
Proof.
  intros Hne Hw Hd. destruct rest as [|c rest].
  - by rewrite stray_word_end.
  - rewrite stray_app. by apply stray_cons_delim.
Qed.

(** *** The whole token stream *)

Abbreviation yielded s :=
  (maximal_runs del s ++ if ends_in_stray_delimiter del s then [[]] else []).

Lemma TokenGen_drain_loop_nil fuel :
  TokenGen_drain_loop (S fuel) (mkTokenGen [] del) = Ok [].
Proof. done. Qed.

Lemma TokenGen_drain_loop_cons fuel c s :
  TokenGen_drain_loop (S fuel) (mkTokenGen (c :: s) del)
  = ('(token, g') ← TokenGen_call (mkTokenGen (c :: s) del);
     rest ← TokenGen_drain_loop fuel g';
     Ok (token :: rest)).
Proof. done. Qed.

Lemma TokenGen_drain_loop_spec n : forall s fuel,
  (length s <= n)%nat -> (length s < fuel)%nat ->
  TokenGen_drain_loop fuel (mkTokenGen s del) = Ok (yielded s).
Proof.
  induction n as [|n IH]; intros s [|fuel] Hn Hf; try lia.
  - destruct s; [done|cbn in Hn; lia].
  - destruct s as [|c s]; [done|].
    rewrite TokenGen_drain_loop_cons. cbn [length] in Hn, Hf.
    destruct (text_shape (c :: s)) as [Hs|(w & d & rest & E & Hw & Hd)].
    + rewrite TokenGen_call_plain by done. cbn [mbind outcome_bind].
      destruct fuel; [lia|]. rewrite TokenGen_drain_loop_nil.
      cbn [mbind outcome_bind].
      by rewrite maximal_runs_plain, stray_plain.
    + destruct w as [|x w].
      * simpl in E. injection E as -> ->. destruct rest as [|c rest].
        -- rewrite TokenGen_call_last by done. cbn [mbind outcome_bind].
           destruct fuel; [cbn in Hf; lia|]. rewrite TokenGen_drain_loop_nil.
           cbn [mbind outcome_bind].
           rewrite maximal_runs_skip, maximal_runs_nil by done.
           cbn. by rewrite bool_decide_eq_true_2.
        -- rewrite TokenGen_call_skip by done.
           rewrite <- TokenGen_drain_loop_cons.
           rewrite (IH (c :: rest) (S fuel)) by (cbn [length] in *; lia).
           by rewrite (maximal_runs_skip d), (stray_cons_delim d).
      * rewrite E. rewrite TokenGen_call_word by done.
        cbn [mbind outcome_bind].
        apply (f_equal length) in E. rewrite length_app in E. cbn [length] in E.
        rewrite (IH rest fuel) by lia. cbn [mbind outcome_bind].
        by rewrite maximal_runs_word, stray_word.
Qed.

Lemma TokenGen_drain_spec s :
  TokenGen_drain (mkTokenGen s del) = Ok (yielded s).
Proof. apply (TokenGen_drain_loop_spec (length s)); cbn; lia. Qed.

Lemma TokenGen_drain_loop_fuel s fuel :
  (length s < fuel)%nat ->
  TokenGen_drain_loop fuel (mkTokenGen s del) = TokenGen_drain (mkTokenGen s del).
Proof.
  intros Hf. rewrite TokenGen_drain_spec.
  by apply (TokenGen_drain_loop_spec (length s)).
Qed.
End Tokenizer.

(** ** Runs, delimiters and features *)

Lemma build_nonalnum_spec c :
  bool_decide (c ∈ build_nonalnum) = negb (isalnum (int_of_char c)).
Proof. destruct c as [[] [] [] [] [] [] [] []]; vm_compute; reflexivity. Qed.

Lemma elem_of_build_nonalnum c :
  c ∈ build_nonalnum <-> isalnum (int_of_char c) = false.
Proof.
  rewrite <- negb_true_iff, <- build_nonalnum_spec. by rewrite bool_decide_eq_true.
Qed.

Lemma maximal_runs_maximal del n : forall s t,
  (length s <= n)%nat -> t ∈ maximal_runs del s -> is_maximal_run del s t.
Proof.
  induction n as [|n IH]; intros s t Hn Ht.
  - destruct s; [|cbn in Hn; lia]. by apply elem_of_nil in Ht.
  - destruct (text_shape del s) as [Hs|(w & d & rest & -> & Hw & Hd)].
    + destruct s as [|c s]; [by apply elem_of_nil in Ht|].
      rewrite maximal_runs_plain in Ht by done.
      apply list_elem_of_singleton in Ht as ->.
      split; [done|]. split; [done|]. exists [], []. rewrite app_nil_r.
      split; [done|]. split; by left.
    + rewrite length_app in Hn. cbn [length] in Hn.
      assert (Hrest : t ∈ maximal_runs del rest ->
                      is_maximal_run del (w ++ d :: rest) t).
      { intros Hin. destruct (IH rest t ltac:(lia) Hin)
          as (Hne & Hall & pre & post & -> & Hpre & Hpost).
        split; [done|]. split; [done|]. exists (w ++ d :: pre), post.
        split; [by rewrite <- !app_assoc|]. split; [|done]. right.
        destruct Hpre as [->|(p & d' & -> & Hd')].
        - by exists w, d.
        - exists (w ++ d :: p), d'. by rewrite <- app_assoc. }
      destruct w as [|x w].
      * cbn [app] in Ht. rewrite (maximal_runs_skip del d rest Hd) in Ht.
        by apply Hrest.
      * rewrite maximal_runs_word in Ht by done.
        apply elem_of_cons in Ht as [->|Ht]; [|by apply Hrest].
        split; [done|]. split; [done|]. exists [], (d :: rest).
        split; [done|]. split; [by left|]. right. by exists d, rest.
Qed.

Section Features.
Variable MurmurHash3_x86_32 : string_view -> Z -> Z.
Variable d : Deduplicator.

Local Abbreviation consume := (consume_token MurmurHash3_x86_32 d).
Local Abbreviation features_loop := (extract_features_loop MurmurHash3_x86_32).

(** The loop of [extract_features] consumes exactly the tokens the
    tokenizer yields. *)
Lemma extract_features_loop_drain fuel : forall g tokens state,
  TokenGen_drain_loop fuel g = Ok tokens ->
  features_loop fuel d g state
  = (state' ← for_each consume state tokens; Ok (snd state')).
Proof.
  induction fuel as [|fuel IH]; intros g tokens state; [done|].
  cbn [TokenGen_drain_loop extract_features_loop].
  destruct (TokenGen_bool g).
  - destruct (TokenGen_call g) as [[t g']| |]; cbn [mbind outcome_bind]; try done.
    destruct (TokenGen_drain_loop fuel g') as [rest| |] eqn:E;
      cbn [mbind outcome_bind]; try done.
    intros [= <-]. cbn [for_each].
    destruct (consume state t) as [state'| |]; cbn [mbind outcome_bind]; try done.
    by apply IH.
  - by intros [= <-].
Qed.

Lemma extract_features_tokens text :
  extract_features MurmurHash3_x86_32 d text
  = (state ← for_each consume ([], ∅)
               (maximal_runs (nonalnum_ d) text ++
                if ends_in_stray_delimiter (nonalnum_ d) text then [[]] else []);
     Ok (snd state)).
Proof.
  unfold extract_features. apply extract_features_loop_drain.
  apply (TokenGen_drain_loop_spec (nonalnum_ d) (length text)); lia.
Qed.

Lemma consume_token_defined state token :
  num_features_ d <> 0 -> exists state', consume state token = Ok state'.
Proof.
  intros Hnf. destruct state as [window indices]. unfold consume_token.
  case_bool_decide; [|eauto].
  rewrite bool_decide_eq_false_2 by done. eauto.
Qed.

Lemma consume_tokens_defined tokens : forall state,
  num_features_ d <> 0 -> exists state', for_each consume state tokens = Ok state'.
Proof.
  induction tokens as [|t tokens IH]; intros state Hnf; cbn [for_each]; [eauto|].
  destruct (consume_token_defined state t Hnf) as [state' ->].
  cbn [mbind outcome_bind]. by apply IH.
Qed.

Lemma extract_features_defined text :
  num_features_ d <> 0 ->
  exists indices, extract_features MurmurHash3_x86_32 d text = Ok indices.
Proof.
  intros Hnf. rewrite extract_features_tokens.
  destruct (consume_tokens_defined
              (maximal_runs (nonalnum_ d) text ++
               if ends_in_stray_delimiter (nonalnum_ d) text then [[]] else [])
              ([], ∅) Hnf) as [state ->].
  cbn [mbind outcome_bind]. eauto.
Qed.

(** As long as the window is not full nothing is hashed. *)
Lemma consume_token_short window indices token :
  (length window + 1 < ngrams_ d)%nat ->
  consume (window, indices) token = Ok (window ++ [token], indices).
Proof.
  intros Hlen. unfold consume_token.
  assert (length (window ++ [token]) = length window + 1)%nat as Hl
    by (rewrite length_app; done).
  rewrite (bool_decide_eq_false_2 (ngrams_ d < length (window ++ [token]))%nat)
    by lia.
  by rewrite bool_decide_eq_false_2 by lia.
Qed.

Lemma consume_tokens_short tokens : forall window indices,
  (length window + length tokens < ngrams_ d)%nat ->
  for_each consume (window, indices) tokens = Ok (window ++ tokens, indices).
Proof.
  induction tokens as [|t tokens IH]; intros window indices Hlen; cbn [for_each].
  - by rewrite app_nil_r.
  - cbn [length] in Hlen. rewrite consume_token_short by lia.
    cbn [mbind outcome_bind]. rewrite IH by (rewrite length_app; cbn; lia).
    by rewrite <- app_assoc.
Qed.
End Features.

(** ** process *)

Section Process.
Variable MurmurHash3_x86_32 : string_view -> Z -> Z.
Variable bucket_order : gset Z -> list Z.
Variable d : Deduplicator.
Variable docs : list string_view.
Hypothesis features_nonzero : num_features_ d <> 0.
Hypothesis hasher_sized : MinHasher_sized (hasher_ d).

Local Abbreviation signature := (signature_of MurmurHash3_x86_32 bucket_order d).

Lemma signature_of_defined doc :
  exists sig, signature doc = Ok sig /\ length sig = num_hashes_ (hasher_ d).
Proof.
  unfold signature_of.
  destruct (extract_features_defined MurmurHash3_x86_32 d doc features_nonzero)
    as [indices ->]. cbn [mbind outcome_bind].
  by apply compute_signature_defined.
Qed.

Lemma compute_signatures_loop l : forall acc,
  exists sigs,
    for_each (fun signatures doc => sig ← signature doc; Ok (signatures ++ [sig]))
      acc l = Ok (acc ++ sigs) /\
    Forall2 (fun doc sig => signature doc = Ok sig) l sigs.
Proof.
  induction l as [|doc l IH]; intros acc; cbn [for_each].
  - exists []. by rewrite app_nil_r.
  - destruct (signature_of_defined doc) as (sig & Hsig & _). rewrite Hsig.
    cbn [mbind outcome_bind]. destruct (IH (acc ++ [sig])) as (sigs & -> & Hall).
    exists (sig :: sigs). split; [by rewrite <- app_assoc|]. by constructor.
Qed.

Lemma compute_signatures_spec :
  exists sigs,
    compute_signatures MurmurHash3_x86_32 bucket_order d docs = Ok sigs /\
    Forall2 (fun doc sig => signature doc = Ok sig) docs sigs.
Proof. apply (compute_signatures_loop docs []). Qed.

Section Pairs.
Variable sigs : list (list Z).
Hypothesis sigs_ok : Forall2 (fun doc sig => signature doc = Ok sig) docs sigs.

Local Abbreviation reported := (is_report_of signature (threshold_ d) docs).

Lemma sigs_lookup i doc :
  docs !! i = Some doc ->
  exists sig, sigs !! i = Some sig /\ signature doc = Ok sig /\
    length sig = num_hashes_ (hasher_ d).
Proof.
  intros Hi. destruct (Forall2_lookup_l _ _ _ _ _ sigs_ok Hi) as (sig & Hs & Hsig).
  exists sig. split; [done|]. split; [done|].
  destruct (signature_of_defined doc) as (sig' & Hsig' & Hl). congruence.
Qed.

Lemma compare_pair_spec i j out :
  (i < length docs)%nat -> (j < length docs)%nat ->
  exists out', compare_pair d docs sigs i out j = Ok (out ++ out') /\
    forall r, r ∈ out' <-> reported i j r.
Proof.
  intros Hi Hj.
  destruct (lookup_lt_is_Some_2 docs i Hi) as [di Hdi].
  destruct (lookup_lt_is_Some_2 docs j Hj) as [dj Hdj].
  destruct (sigs_lookup i di Hdi) as (si & Hsi & Hsigi & Hli).
  destruct (sigs_lookup j dj Hdj) as (sj & Hsj & Hsigj & Hlj).
  destruct (jaccard_distance_defined si sj ltac:(lia)) as [dist Hdist].
  unfold compare_pair.
  rewrite (proj2 (vec_at_Ok sigs i si) Hsi), (proj2 (vec_at_Ok sigs j sj) Hsj).
  cbn [mbind outcome_bind]. rewrite Hdist. cbn [mbind outcome_bind].
  destruct (dbl_lt dist (threshold_ d)) eqn:Hlt.
  - rewrite (proj2 (vec_at_Ok docs i di) Hdi), (proj2 (vec_at_Ok docs j dj) Hdj).
    cbn [mbind outcome_bind]. eexists. split; [done|]. intros r.
    rewrite list_elem_of_singleton. split.
    + intros ->. by exists di, dj, si, sj, dist.
    + intros (di' & dj' & si' & sj' & dist' & ? & ? & ? & ? & ? & ? & ->).
      by same_outcome.
  - exists []. split; [by rewrite app_nil_r|]. intros r. split.
    + intros Hr. by apply elem_of_nil in Hr.
    + intros (di' & dj' & si' & sj' & dist' & ? & ? & ? & ? & ? & ? & ->).
      same_outcome. congruence.
Qed.

Lemma inner_loop_spec i k : forall lo out,
  (i < length docs)%nat -> (lo + k <= length docs)%nat ->
  exists out',
    for_each (compare_pair d docs sigs i) out (seq lo k) = Ok (out ++ out') /\
    forall r, r ∈ out' <-> exists j : nat, (lo <= j < lo + k)%nat /\ reported i j r.
Proof.
  induction k as [|k IH]; intros lo out Hi Hk; cbn [for_each seq].
  - exists []. split; [by rewrite app_nil_r|]. intros r. split.
    + intros Hr. by apply elem_of_nil in Hr.
    + intros (j & ? & _). lia.
  - destruct (compare_pair_spec i lo out Hi ltac:(lia)) as (o1 & -> & H1).
    cbn [mbind outcome_bind].
    destruct (IH (S lo) (out ++ o1) Hi ltac:(lia)) as (o2 & -> & H2).
    exists (o1 ++ o2). split; [by rewrite <- app_assoc|]. intros r.
    rewrite elem_of_app, H1, H2. split.
    + intros [Hr|(j & Hj & Hr)]; [exists lo|exists j]; split; try done; lia.
    + intros (j & Hj & Hr). destruct (decide (j = lo)) as [->|Hne]; [by left|].
      right. exists j. split; [lia|done].
Qed.

Lemma outer_loop_spec k : forall lo out,
  (lo + k <= length docs)%nat ->
  exists out',
    for_each (fun out i =>
        for_each (compare_pair d docs sigs i) out
          (seq (i + 1) (length docs - (i + 1))))
      out (seq lo k) = Ok (out ++ out') /\
    forall r, r ∈ out' <->
      exists i j : nat, (lo <= i < lo + k)%nat /\ (i < j < length docs)%nat /\
        reported i j r.
Proof.
  induction k as [|k IH]; intros lo out Hk; cbn [for_each seq].
  - exists []. split; [by rewrite app_nil_r|]. intros r. split.
    + intros Hr. by apply elem_of_nil in Hr.
    + intros (i & j & ? & _). lia.
  - destruct (inner_loop_spec lo (length docs - (lo + 1)) (lo + 1) out
                ltac:(lia) ltac:(lia)) as (o1 & -> & H1).
    cbn [mbind outcome_bind].
    destruct (IH (S lo) (out ++ o1) ltac:(lia)) as (o2 & -> & H2).
    exists (o1 ++ o2). split; [by rewrite <- app_assoc|]. intros r.
    rewrite elem_of_app, H1, H2. split.
    + intros [(j & Hj & Hr)|(i & j & Hi & Hj & Hr)].
      * exists lo, j. split; [lia|]. split; [lia|done].
      * exists i, j. split; [lia|]. split; [lia|done].
    + intros (i & j & Hi & Hj & Hr). destruct (decide (i = lo)) as [->|Hne].
      * left. exists j. split; [lia|done].
      * right. exists i, j. split; [lia|]. split; [lia|done].
Qed.
End Pairs.

Lemma process_spec :
  exists out,
    process MurmurHash3_x86_32 bucket_order d docs = Ok out /\
    forall r, r ∈ out <->
      exists i j : nat, (i < j < length docs)%nat /\
        is_report_of signature (threshold_ d) docs i j r.
Proof.
  unfold process. destruct compute_signatures_spec as (sigs & -> & Hsigs).
  cbn [mbind outcome_bind].
  destruct (outer_loop_spec sigs Hsigs (length docs) 0%nat [] ltac:(lia))
    as (out & -> & Hout).
  exists out. split; [done|]. intros r. rewrite Hout. split.
  - intros (i & j & _ & Hj & Hr). by exists i, j.
  - intros (i & j & Hj & Hr). exists i, j. split; [lia|done].
Qed.
End Process.

(** * The claims *)

(** ** C1: the signature is the slot-wise minimum hash *)

(** C1: for every feature set [S] of the program, [compute_signature]
    returns a vector of length [num_hashes] whose slot [i] is the minimum over
    [f] in [S] of [((1 + f) * a_i + b_i) mod P], [P = 2038074743], and the
    sentinel [P] when [S] is empty, in whatever order the set is visited.
    The hypotheses are what the program guarantees of every call: the
    coefficients are [uint32_t] values, one pair per hash function, and the
    indices are 32-bit hashes reduced modulo [num_features]. *)
Theorem compute_signature_minhash bucket_order h (S : gset Z) :
  visits_each_once bucket_order ->
  MinHasher_sized h ->
  MinHasher_uint32 h ->
  (forall f, f ∈ S -> 0 <= f < 2 ^ 32) ->
  exists sig, compute_signature bucket_order h S = Ok sig /\
    is_minhash_signature linear_hash h S sig /\
    kHashPrime = 2038074743.
Proof.
  intros Hvisit Hsized [Ha Hb] HS.
  destruct (compute_signature_spec bucket_order Hvisit h S Hsized)
    as (sig & Hsig & Hlen & Hslots).
  exists sig. split; [done|]. split; [|done]. split; [done|].
  intros i a b Hia Hib.
  assert (0 <= a < 2 ^ 32) as Har
    by (rewrite Forall_lookup in Ha; exact (Ha i a Hia)).
  assert (0 <= b < 2 ^ 32) as Hbr
    by (rewrite Forall_lookup in Hb; exact (Hb i b Hib)).
  destruct (Hslots i a b Hia Hib) as [Hempty Hne]. split; [done|].
  intros HSne. destruct (Hne HSne) as (f & Hf & Hv & Hmin).
  exists f. split; [done|]. rewrite <- (slot_hash_linear a b f) by auto.
  split; [done|]. intros g Hg. rewrite <- (slot_hash_linear a b g) by auto. auto.
Qed.

Lemma compute_signature_minhash_witness :
  exists sig, compute_signature elements two_hashes {[ 0; 41 ]} = Ok sig /\
    is_minhash_signature linear_hash two_hashes {[ 0; 41 ]} sig /\
    kHashPrime = 2038074743.
Proof.
  apply (compute_signature_minhash elements two_hashes {[ 0; 41 ]}).
  - intros S. reflexivity.
  - split; reflexivity.
  - split; repeat constructor; vm_compute; congruence.
  - intros f Hf. apply elem_of_union in Hf as [Hf|Hf];
      apply elem_of_singleton in Hf as ->; lia.
Defined.

(** The bound on the indices is the precondition of the arithmetic, which is
    done in [unsigned long long]: a set that could hold the index [2^64 - 1]
    would make [1 + f] wrap to 0, and the index [2^40] with [a = P - 1] would
    make the product wrap.  [extract_features] produces no such index. *)
Lemma compute_signature_wraps :
  (compute_signature elements plain_hash {[ 2 ^ 64 - 1 ]} = Ok [0] /\
   linear_hash 1 0 (2 ^ 64 - 1) = 138615905) /\
  (compute_signature elements steep_hash {[ 2 ^ 40 ]} = Ok [580806882] /\
   linear_hash 2038074742 0 (2 ^ 40) = 1048733443).
Proof. repeat split; vm_compute; reflexivity. Qed.

(** ** C2: all pairs are compared, the threshold is strict *)

(** C2: for a corpus of [n] documents [process] returns, and its output holds
    a report for the pair [(i, j)], [i < j < n], carrying the similarity
    [1 - distance], exactly when the distance of the two signatures is
    strictly below the threshold; a pair whose distance equals the threshold
    is not reported. *)
Theorem process_reports_below_threshold MurmurHash3_x86_32 bucket_order d docs :
  num_features_ d <> 0 ->
  MinHasher_sized (hasher_ d) ->
  exists out,
    process MurmurHash3_x86_32 bucket_order d docs = Ok out /\
    (forall r, r ∈ out <->
       exists i j : nat, (i < j < length docs)%nat /\
         is_report_of (signature_of MurmurHash3_x86_32 bucket_order d)
           (threshold_ d) docs i j r) /\
    (forall (i j : nat) di dj si sj dist,
       docs !! i = Some di -> docs !! j = Some dj ->
       signature_of MurmurHash3_x86_32 bucket_order d di = Ok si ->
       signature_of MurmurHash3_x86_32 bucket_order d dj = Ok sj ->
       jaccard_distance si sj = Ok dist ->
       dbl_eq dist (threshold_ d) = true ->
       forall r, r ∈ out -> ~ (rep_i r = i /\ rep_j r = j)).
Proof.
  intros Hnf Hsized.
  destruct (process_spec MurmurHash3_x86_32 bucket_order d docs Hnf Hsized)
    as (out & Hout & Hmem).
  exists out. split; [done|]. split; [done|].
  intros i j di dj si sj dist Hdi Hdj Hsi Hsj Hdist Heq r Hr [Hri Hrj].
  apply Hmem in Hr as (i' & j' & _ & di' & dj' & si' & sj' & dist' &
                       Hdi' & Hdj' & Hsi' & Hsj' & Hdist' & Hlt & ->).
  cbn in Hri, Hrj. subst i' j'. same_outcome.
  apply dbl_lt_irrefl in Heq. congruence.
Qed.

Lemma process_reports_below_threshold_witness :
  exists out,
    process bytesum_hash elements small_dedup [fox; others; fox] = Ok out /\
    (forall r, r ∈ out <->
       exists i j : nat, (i < j < length [fox; others; fox])%nat /\
         is_report_of (signature_of bytesum_hash elements small_dedup)
           (threshold_ small_dedup) [fox; others; fox] i j r) /\
    (forall (i j : nat) di dj si sj dist,
       [fox; others; fox] !! i = Some di -> [fox; others; fox] !! j = Some dj ->
       signature_of bytesum_hash elements small_dedup di = Ok si ->
       signature_of bytesum_hash elements small_dedup dj = Ok sj ->
       jaccard_distance si sj = Ok dist ->
       dbl_eq dist (threshold_ small_dedup) = true ->
       forall r, r ∈ out -> ~ (rep_i r = i /\ rep_j r = j)).
Proof.
  apply (process_reports_below_threshold bytesum_hash elements small_dedup
           [fox; others; fox]).
  - vm_compute. congruence.
  - split; reflexivity.
Defined.

(** ** C3: identical documents are reported *)

(** C3, as stated, fails: with [num_hashes = 0], which the constructor
    accepts, the two copies of a document have the empty signature, their
    distance is [0.0 / 0.0], a NaN and not [0], and the pair is not reported
    although the threshold is above zero. *)
Lemma identical_documents_unreported :
  let d := mkDeduplicator 3 262144 dbl_0_3 build_nonalnum
             (MinHasher_ctor lcg_seed lcg_draw 0 1) in
  dbl_lt dbl_zero (threshold_ d) = true /\
  signature_of bytesum_hash elements d fox = Ok [] /\
  jaccard_distance [] [] = Ok S754_nan /\
  dbl_eq S754_nan dbl_zero = false /\
  process bytesum_hash elements d [fox; fox] = Ok [].
Proof. repeat split; vm_compute; reflexivity. Qed.

(** C3 (amended): two byte-identical documents of the corpus have the same
    FeatureSet and the same signature.  With at least one hash function their
    distance is exactly [+0.0] and, for any threshold above zero, the pair is
    reported, with similarity [1.0].  With [num_hashes = 0] the signature is
    empty, the distance is NaN and the pair is not reported. *)
Theorem identical_documents_reported MurmurHash3_x86_32 bucket_order d docs
    (i j : nat) di dj :
  num_features_ d <> 0 ->
  MinHasher_sized (hasher_ d) ->
  Z.of_nat (num_hashes_ (hasher_ d)) < 2 ^ 64 ->
  (i < j)%nat -> docs !! i = Some di -> docs !! j = Some dj -> di = dj ->
  dbl_lt dbl_zero (threshold_ d) = true ->
  exists features sig dist out,
    extract_features MurmurHash3_x86_32 d di = Ok features /\
    extract_features MurmurHash3_x86_32 d dj = Ok features /\
    signature_of MurmurHash3_x86_32 bucket_order d di = Ok sig /\
    signature_of MurmurHash3_x86_32 bucket_order d dj = Ok sig /\
    jaccard_distance sig sig = Ok dist /\
    process MurmurHash3_x86_32 bucket_order d docs = Ok out /\
    ((0 < num_hashes_ (hasher_ d))%nat ->
       dist = dbl_zero /\ mkReport i j dbl_one di dj ∈ out) /\
    (num_hashes_ (hasher_ d) = 0%nat ->
       sig = [] /\ dist = S754_nan /\ dbl_eq dist dbl_zero = false /\ out = []).
Proof.
  intros Hnf Hsized Hn Hij Hdi Hdj <- Hthr.
  destruct (extract_features_defined MurmurHash3_x86_32 d di Hnf) as [features Hf].
  destruct (signature_of_defined MurmurHash3_x86_32 bucket_order d Hnf Hsized di)
    as (sig & Hsig & Hlen).
  destruct (process_spec MurmurHash3_x86_32 bucket_order d docs Hnf Hsized)
    as (out & Hout & Hmem).
  destruct (decide (num_hashes_ (hasher_ d) = 0%nat)) as [Hzero|Hpos].
  - rewrite Hzero in Hlen. destruct sig; [|done].
    exists features, [], S754_nan, out. repeat (split; [done|]).
    split; [lia|]. intros _. repeat (split; [done|]).
    destruct out as [|r out]; [done|]. exfalso.
    destruct (proj1 (Hmem r) ltac:(left))
      as (i' & j' & _ & di' & dj' & si & sj & dist & _ & _ & Hsi & Hsj & Hdist & Hlt & _).
    destruct (signature_of_defined MurmurHash3_x86_32 bucket_order d Hnf Hsized di')
      as (si' & Hsi' & Hli).
    destruct (signature_of_defined MurmurHash3_x86_32 bucket_order d Hnf Hsized dj')
      as (sj' & Hsj' & Hlj).
    same_outcome. rewrite Hzero in Hli, Hlj.
    destruct si; [|done]. destruct sj; [|done].
    vm_compute in Hdist. injection Hdist as <-. done.
  - assert (Hself : jaccard_distance sig sig = Ok dbl_zero)
      by (apply jaccard_distance_self; lia).
    exists features, sig, dbl_zero, out. repeat (split; [done|]).
    split; [|done]. intros _. split; [done|].
    apply Hmem. exists i, j. split.
    + apply lookup_lt_Some in Hdj. lia.
    + by exists di, di, sig, sig, dbl_zero.
Qed.

Lemma identical_documents_reported_witness :
  exists features sig dist out,
    extract_features bytesum_hash small_dedup fox = Ok features /\
    extract_features bytesum_hash small_dedup fox = Ok features /\
    signature_of bytesum_hash elements small_dedup fox = Ok sig /\
    signature_of bytesum_hash elements small_dedup fox = Ok sig /\
    jaccard_distance sig sig = Ok dist /\
    process bytesum_hash elements small_dedup [fox; others; fox] = Ok out /\
    ((0 < num_hashes_ (hasher_ small_dedup))%nat ->
       dist = dbl_zero /\ mkReport 0 2 dbl_one fox fox ∈ out) /\
    (num_hashes_ (hasher_ small_dedup) = 0%nat ->
       sig = [] /\ dist = S754_nan /\ dbl_eq dist dbl_zero = false /\ out = []).
Proof.
  apply (identical_documents_reported bytesum_hash elements small_dedup
           [fox; others; fox] 0 2 fox fox).
  - vm_compute. congruence.
  - split; reflexivity.
  - vm_compute. reflexivity.
  - lia.
  - reflexivity.
  - reflexivity.
  - reflexivity.
  - vm_compute. reflexivity.
Defined.

(** ** C8: the distance of a signature to itself *)

(** C8, as stated, fails: with [num_hashes = 0] the signature the pipeline
    produces for a document is empty, and the distance of the empty signature
    to itself is [1.0 - 0.0 / 0.0], a NaN, which is not [0] and does not
    compare equal to it. *)
Lemma self_distance_nan :
  let d := mkDeduplicator 3 262144 dbl_0_3 build_nonalnum
             (MinHasher_ctor lcg_seed lcg_draw 0 1) in
  signature_of bytesum_hash elements d fox = Ok [] /\
  jaccard_distance [] [] = Ok S754_nan /\
  S754_nan <> dbl_zero /\
  dbl_eq S754_nan dbl_zero = false.
Proof. repeat split; try (vm_compute; reflexivity). discriminate. Qed.

(** C8 (amended): a signature the pipeline produces for a document is at
    distance [+0.0] from itself when the configuration has at least one hash
    function; with [num_hashes = 0] the signature is empty and its distance
    from itself is NaN. *)
Theorem self_distance_zero_or_nan MurmurHash3_x86_32 bucket_order d doc s :
  MinHasher_sized (hasher_ d) ->
  Z.of_nat (num_hashes_ (hasher_ d)) < 2 ^ 64 ->
  signature_of MurmurHash3_x86_32 bucket_order d doc = Ok s ->
  exists dist, jaccard_distance s s = Ok dist /\
    ((0 < num_hashes_ (hasher_ d))%nat -> dist = dbl_zero) /\
    (num_hashes_ (hasher_ d) = 0%nat ->
       s = [] /\ dist = S754_nan /\ dbl_eq dist dbl_zero = false).
Proof.
  intros Hsized Hn Hs. unfold signature_of in Hs.
  destruct (extract_features _ d doc) as [features| |]; cbn in Hs; try done.
  apply compute_signature_length in Hs; [|done].
  destruct (decide (num_hashes_ (hasher_ d) = 0%nat)) as [Hzero|Hpos].
  - rewrite Hzero in Hs. destruct s; [|done].
    exists S754_nan. split; [vm_compute; reflexivity|]. split; [lia|done].
  - exists dbl_zero. split; [apply jaccard_distance_self; lia|]. split; [done|lia].
Qed.

Lemma self_distance_zero_or_nan_witness :
  exists dist, jaccard_distance [548712; 914527] [548712; 914527] = Ok dist /\
    ((0 < num_hashes_ (hasher_ small_dedup))%nat -> dist = dbl_zero) /\
    (num_hashes_ (hasher_ small_dedup) = 0%nat ->
       [548712; 914527] = [] /\ dist = S754_nan /\ dbl_eq dist dbl_zero = false).
Proof.
  apply (self_distance_zero_or_nan bytesum_hash elements small_dedup (sv "a b c")).
  - split; reflexivity.
  - vm_compute. reflexivity.
  - vm_compute. reflexivity.
Defined.

(** ** C10: the unguarded division *)

(** C10: [jaccard_distance] divides the number of agreements by the length of
    its first argument.  On two signatures of equal length it returns a number
    exactly when they are not empty: for two empty signatures the quotient is
    [0.0 / 0.0] and the result is NaN, which is not [0]. *)
Theorem jaccard_distance_empty (a b : list Z) :
  length b = length a ->
  Z.of_nat (length a) < 2 ^ 64 ->
  exists dist, jaccard_distance a b = Ok dist /\
    (a = [] -> double_of_size_t (Z.of_nat (length a)) = dbl_zero /\
               dist = S754_nan /\ dbl_eq dist dbl_zero = false) /\
    (a <> [] -> dist <> S754_nan).
Proof.
  intros Hlen Hsize.
  destruct (jaccard_distance_defined a b ltac:(lia)) as [dist Hdist].
  exists dist. split; [done|]. split.
  - intros ->. destruct b; [|done]. vm_compute in Hdist.
    injection Hdist as <-. done.
  - intros Hne. apply (jaccard_distance_not_nan a b); [|done].
    destruct a; [done|]. cbn [length] in *. lia.
Qed.

Lemma jaccard_distance_empty_witness :
  exists dist, jaccard_distance [] [] = Ok dist /\
    (@nil Z = [] -> double_of_size_t (Z.of_nat (length (@nil Z))) = dbl_zero /\
                    dist = S754_nan /\ dbl_eq dist dbl_zero = false) /\
    (@nil Z <> [] -> dist <> S754_nan).
Proof.
  apply (jaccard_distance_empty [] []).
  - reflexivity.
  - vm_compute. reflexivity.
Defined.

(** ** C4: determinism *)

Lemma compute_signature_order_irrelevant order1 order2 h S :
  visits_each_once order1 -> visits_each_once order2 -> MinHasher_sized h ->
  compute_signature order1 h S = compute_signature order2 h S.
Proof.
  intros H1 H2 Hh.
  destruct (compute_signature_spec order1 H1 h S Hh) as (sig1 & -> & Hs1).
  destruct (compute_signature_spec order2 H2 h S Hh) as (sig2 & -> & Hs2).
  f_equal. by apply (is_minhash_signature_unique slot_hash h S).
Qed.

Lemma signature_of_order_irrelevant MurmurHash3_x86_32 order1 order2 d doc :
  visits_each_once order1 -> visits_each_once order2 ->
  MinHasher_sized (hasher_ d) ->
  signature_of MurmurHash3_x86_32 order1 d doc
  = signature_of MurmurHash3_x86_32 order2 d doc.
Proof.
  intros H1 H2 Hh. unfold signature_of.
  destruct (extract_features _ d doc); cbn [mbind outcome_bind]; try done.
  by apply compute_signature_order_irrelevant.
Qed.

(** C4: two runs with the same seed, the same configuration and the same
    corpus draw the same coefficients, compute the same signature for every
    document and print the same reports, whatever the order in which each
    run happens to visit its unordered sets. *)
Theorem pipeline_deterministic {engine : Type} (mt19937 : Z -> engine)
    uniform_int_distribution MurmurHash3_x86_32 order1 order2
    ngrams num_hashes threshold num_features seed docs h1 h2 :
  visits_each_once order1 -> visits_each_once order2 ->
  h1 = MinHasher_ctor mt19937 uniform_int_distribution num_hashes seed ->
  h2 = MinHasher_ctor mt19937 uniform_int_distribution num_hashes seed ->
  let d1 := mkDeduplicator ngrams num_features threshold build_nonalnum h1 in
  let d2 := mkDeduplicator ngrams num_features threshold build_nonalnum h2 in
  (a_ h1 = a_ h2 /\ b_ h1 = b_ h2) /\
  compute_signatures MurmurHash3_x86_32 order1 d1 docs
  = compute_signatures MurmurHash3_x86_32 order2 d2 docs /\
  process MurmurHash3_x86_32 order1 d1 docs
  = process MurmurHash3_x86_32 order2 d2 docs.
Proof.
  intros Ho1 Ho2 -> -> d. cbn zeta. split; [done|].
  assert (Hsized : MinHasher_sized (hasher_ d)) by apply MinHasher_ctor_sized.
  assert (Hsigs : compute_signatures MurmurHash3_x86_32 order1 d docs
                  = compute_signatures MurmurHash3_x86_32 order2 d docs).
  { unfold compute_signatures. apply for_each_ext. intros sigs doc _.
    by rewrite (signature_of_order_irrelevant _ order1 order2). }
  split; [done|]. unfold process. by rewrite Hsigs.
Qed.

Lemma pipeline_deterministic_witness :
  let h := MinHasher_ctor lcg_seed lcg_draw 13 1 in
  let d := mkDeduplicator 3 262144 dbl_0_3 build_nonalnum h in
  (a_ h = a_ h /\ b_ h = b_ h) /\
  compute_signatures bytesum_hash elements d [fox; others; fox]
  = compute_signatures bytesum_hash (fun S => reverse (elements S)) d
      [fox; others; fox] /\
  process bytesum_hash elements d [fox; others; fox]
  = process bytesum_hash (fun S => reverse (elements S)) d [fox; others; fox].
Proof.
  apply (pipeline_deterministic lcg_seed lcg_draw bytesum_hash elements
           (fun S => reverse (elements S)) 3 13 dbl_0_3 262144 1 [fox; others; fox]).
  - intros S. reflexivity.
  - intros S. apply reverse_Permutation.
  - reflexivity.
  - reflexivity.
Defined.

(** ** C9: the hash family *)

(** C9: whatever the seed, every coefficient pair drawn by the constructor
    has [a_i] in [[1, P - 1]], hence non-zero, and [b_i] in [[0, P - 1]], with
    [P = 2038074743]; there are exactly [num_hashes] pairs.  The family is
    only read afterwards: [compute_signature] is a [const] member and
    [jaccard_distance] a [static] one, here functions that return no
    hasher. *)
Theorem hash_family_in_range {engine : Type} (mt19937 : Z -> engine)
    uniform_int_distribution num_hashes seed :
  (forall lo hi rng, lo <= hi ->
     lo <= fst (uniform_int_distribution lo hi rng) <= hi) ->
  let h := MinHasher_ctor mt19937 uniform_int_distribution num_hashes seed in
  kHashPrime = 2038074743 /\
  num_hashes_ h = num_hashes /\
  length (a_ h) = num_hashes /\ length (b_ h) = num_hashes /\
  forall i : nat, (i < num_hashes)%nat ->
    exists a b, a_ h !! i = Some a /\ b_ h !! i = Some b /\
      1 <= a <= kHashPrime - 1 /\ 0 <= b <= kHashPrime - 1 /\ a <> 0.
Proof.
  intros Hrange h. split; [done|].
  destruct (MinHasher_ctor_spec mt19937 uniform_int_distribution Hrange
              num_hashes seed) as (Hn & Ha & Hb & Hi).
  repeat (split; [done|]). intros i Hlt.
  destruct (Hi i Hlt) as [(a & Hia & Har) (b & Hib & Hbr)].
  exists a, b. repeat (split; [done|]). lia.
Qed.

Lemma lcg_draw_in_range lo hi rng :
  lo <= hi -> lo <= fst (lcg_draw lo hi rng) <= hi.
Proof.
  intros Hle. unfold lcg_draw. cbn [fst].
  pose proof (Z.mod_pos_bound ((1103515245 * rng + 12345) mod 2 ^ 31) (hi - lo + 1)
                ltac:(lia)). lia.
Qed.

Lemma hash_family_in_range_witness :
  let h := MinHasher_ctor lcg_seed lcg_draw 13 1 in
  kHashPrime = 2038074743 /\
  num_hashes_ h = 13%nat /\
  length (a_ h) = 13%nat /\ length (b_ h) = 13%nat /\
  forall i : nat, (i < 13)%nat ->
    exists a b, a_ h !! i = Some a /\ b_ h !! i = Some b /\
      1 <= a <= kHashPrime - 1 /\ 0 <= b <= kHashPrime - 1 /\ a <> 0.
Proof.
  apply (hash_family_in_range lcg_seed lcg_draw 13 1).
  intros lo hi rng Hle. apply lcg_draw_in_range, Hle.
Defined.

(** ** C5: construction *)

Section Construct.
Context {engine heap : Type}.
Variable mt19937 : Z -> engine.
Variable uniform_int_distribution : Z -> Z -> engine -> Z * engine.
Variable max_size : Z.
Variable allocate : heap -> Z -> option heap.



End Construct.



(** Under the configuration of [main] the two vectors take 52 bytes each:
    construction returns on a heap that has them, and throws
    [std::bad_alloc] on one that has not; a vector that may hold at most ten
    elements makes it throw [std::length_error]. *)
Lemma Deduplicator_ctor_allocates :
  (exists d, Deduplicator_ctor lcg_seed lcg_draw max_size_64 free_bytes_allocate
               104 3 13 dbl_0_3 262144 = Returns d /\ num_hashes_ (hasher_ d) = 13%nat) /\
  Deduplicator_ctor lcg_seed lcg_draw max_size_64 free_bytes_allocate
    103 3 13 dbl_0_3 262144 = Throws bad_alloc /\
  Deduplicator_ctor lcg_seed lcg_draw 10 free_bytes_allocate
    104 3 13 dbl_0_3 262144 = Throws length_error.
Proof.
  split; [eexists; split; vm_compute; reflexivity|].
  split; vm_compute; reflexivity.
Qed.

(** ** C6: the tokens *)

(** C6, as stated, fails: on the text [" "] the tokenizer reports itself
    non-exhausted and the call then yields the empty token. *)
Lemma TokenGen_yields_empty_token :
  TokenGen_bool (mkTokenGen (sv " ") build_nonalnum) = true /\
  TokenGen_call (mkTokenGen (sv " ") build_nonalnum)
  = Ok ([], mkTokenGen [] build_nonalnum) /\
  TokenGen_drain (mkTokenGen (sv "a  ") build_nonalnum) = Ok [sv "a"; []].
Proof. repeat split; vm_compute; reflexivity. Qed.

(** C6 (amended): with the delimiter set of all non-alphanumeric bytes, the
    tokens yielded while the tokenizer reports itself non-exhausted are the
    maximal runs of alphanumeric bytes of the text, in order, each non-empty,
    so that consecutive delimiters collapse to a single boundary; they are
    followed by one empty token exactly when the text ends in a delimiter
    that does not directly follow an alphanumeric byte. *)
Theorem TokenGen_tokens (text : string_view) :
  TokenGen_drain (mkTokenGen text build_nonalnum)
  = Ok (maximal_runs build_nonalnum text ++
        if ends_in_stray_delimiter build_nonalnum text then [[]] else []) /\
  (forall t, t ∈ maximal_runs build_nonalnum text ->
     is_maximal_run build_nonalnum text t /\
     Forall (fun c => isalnum (int_of_char c) = true) t) /\
  (forall c, c ∈ build_nonalnum <-> isalnum (int_of_char c) = false).
Proof.
  split; [apply TokenGen_drain_spec|]. split; [|apply elem_of_build_nonalnum].
  intros t Ht.
  pose proof (maximal_runs_maximal build_nonalnum (length text) text t
                ltac:(lia) Ht) as Hmax.
  split; [done|]. destruct Hmax as (_ & Hall & _).
  eapply Forall_impl; [exact Hall|]. intros c Hc. cbn beta in Hc.
  rewrite elem_of_build_nonalnum in Hc. by destruct (isalnum (int_of_char c)).
Qed.

(** ** C7: documents with fewer tokens than the window *)

Lemma extract_features_short MurmurHash3_x86_32 d text :
  (length (maximal_runs (nonalnum_ d) text ++
           if ends_in_stray_delimiter (nonalnum_ d) text then [[]] else [])
   < ngrams_ d)%nat ->
  extract_features MurmurHash3_x86_32 d text = Ok ∅.
Proof.
  intros Hlen. rewrite extract_features_tokens.
  by rewrite consume_tokens_short by (cbn [length]; lia).
Qed.

(** Where the tokenizer yields fewer than [ngrams] tokens, the empty end
    token counted, the signature is all-sentinel and two such documents are
    at distance [+0.0]. *)
Lemma short_documents_all_sentinel MurmurHash3_x86_32 bucket_order d text text' :
  visits_each_once bucket_order ->
  0 < Z.of_nat (num_hashes_ (hasher_ d)) < 2 ^ 64 ->
  extract_features MurmurHash3_x86_32 d text = Ok ∅ ->
  extract_features MurmurHash3_x86_32 d text' = Ok ∅ ->
  let sentinel := replicate (num_hashes_ (hasher_ d)) kHashPrime in
  signature_of MurmurHash3_x86_32 bucket_order d text = Ok sentinel /\
  signature_of MurmurHash3_x86_32 bucket_order d text' = Ok sentinel /\
  jaccard_distance sentinel sentinel = Ok dbl_zero.
Proof.
  intros Hvisit Hn Ht Ht' sentinel. unfold signature_of. rewrite Ht, Ht'.
  cbn [mbind outcome_bind]. unfold compute_signature.
  assert (bucket_order ∅ = []) as ->.
  { apply Permutation_nil_r. by rewrite (Hvisit ∅), elements_empty. }
  cbn [for_each]. repeat (split; [done|]).
  apply jaccard_distance_self. unfold sentinel. by rewrite length_replicate.
Qed.

(** C7 fails on the code: under the configuration of [main] (3-grams, 262144
    features) the document ["a b  "] holds two tokens, fewer than [ngrams],
    yet the empty token yielded for its trailing delimiters fills the window
    and the FeatureSet holds the index of the n-gram ["a_b__"]. *)
Theorem extract_features_trailing_delimiters MurmurHash3_x86_32 threshold hasher :
  let d := mkDeduplicator 3 262144 threshold build_nonalnum hasher in
  maximal_runs build_nonalnum (sv "a b  ") = [sv "a"; sv "b"] /\
  extract_features MurmurHash3_x86_32 d (sv "a b  ")
  = Ok {[ u32 (MurmurHash3_x86_32 (sv "a_b__") 0) mod 262144 ]} /\
  ({[ u32 (MurmurHash3_x86_32 (sv "a_b__") 0) mod 262144 ]} : gset Z) <> ∅.
Proof.
  intros d. split; [vm_compute; reflexivity|]. split.
  - rewrite extract_features_tokens.
    replace (maximal_runs (nonalnum_ d) (sv "a b  ") ++
             if ends_in_stray_delimiter (nonalnum_ d) (sv "a b  ") then [[]] else [])
      with [sv "a"; sv "b"; []] by (vm_compute; reflexivity).
    cbn [for_each app].
    rewrite consume_token_short by (cbn; lia). cbn [mbind outcome_bind app].
    rewrite consume_token_short by (cbn; lia). cbn [mbind outcome_bind app].
    unfold consume_token, d. cbn [app length drop ngrams_ num_features_].
    rewrite (bool_decide_eq_false_2 (3 < 3)%nat) by lia.
    rewrite (bool_decide_eq_true_2 (3 = 3)%nat) by done.
    rewrite (bool_decide_eq_false_2 (262144 = 0)) by done.
    cbn [mbind outcome_bind snd]. f_equal. apply union_empty_r_L.
  - apply non_empty_singleton_L.
Qed.

(** * Further properties of the code *)

(** ** TokenGen *)

(** X1: a call of [operator()] always returns and never touches the
    delimiters; on non-empty unread input it consumes at least one byte, so
    [while (splitter) splitter()] makes at most one call per byte of text; on
    exhausted input it returns the empty view and stays exhausted. *)
Theorem TokenGen_call_progress (del s : string_view) :
  exists t s',
    TokenGen_call (mkTokenGen s del) = Ok (t, mkTokenGen s' del) /\
    (length s' <= length s)%nat /\
    (s <> [] -> (length s' < length s)%nat) /\
    (s = [] -> t = [] /\ s' = []).
Proof.
  destruct (TokenGen_call_total del s) as (t & s' & Hcall & Hle & Hlt).
  exists t, s'. repeat (split; [done|]). intros ->.
  rewrite TokenGen_call_plain in Hcall by constructor. by injection Hcall as <- <-.
Qed.

Lemma concat_pieces del (s : list ascii) :
  concat (pieces del s) = filter (fun c => c ∉ del) s.
Proof.
  induction s as [|c s IH]; [done|]. cbn [pieces]. case_bool_decide as Hc.
  - rewrite filter_cons_False by (intros Hn; by apply Hn). exact IH.
  - rewrite filter_cons_True by done. rewrite <- IH.
    by destruct (pieces del s).
Qed.

Lemma concat_maximal_runs del (s : list ascii) :
  concat (maximal_runs del s) = filter (fun c => c ∉ del) s.
Proof.
  rewrite <- concat_pieces. unfold maximal_runs.
  induction (pieces del s) as [|p ps IH]; [done|].
  destruct p as [|c p].
  - rewrite filter_cons_False by (intros Hn; by apply Hn). exact IH.
  - rewrite filter_cons_True by done. cbn [concat]. f_equal. exact IH.
Qed.

(** X2: for any delimiter set, tokenizing loses nothing but delimiters: no
    yielded token holds a delimiter, and the yielded tokens, concatenated,
    are the text with its delimiter bytes removed. *)
Theorem TokenGen_tokens_cover (del : string_view) (text : list ascii) :
  exists tokens,
    TokenGen_drain (mkTokenGen text del) = Ok tokens /\
    concat tokens = filter (fun c => c ∉ del) text /\
    (forall t, t ∈ tokens -> Forall (fun c => c ∉ del) t).
Proof.
  eexists. split; [apply TokenGen_drain_spec|]. split.
  - rewrite concat_app, concat_maximal_runs.
    destruct (ends_in_stray_delimiter del text); cbn; by rewrite app_nil_r.
  - intros t Ht. apply elem_of_app in Ht as [Ht|Ht].
    + by destruct (maximal_runs_maximal del (length text) text t ltac:(lia) Ht)
        as (_ & Hall & _).
    + destruct (ends_in_stray_delimiter del text).
      * apply list_elem_of_singleton in Ht as ->. constructor.
      * by apply elem_of_nil in Ht.
Qed.

(** ** extract_features *)

Section MoreFeatures.
Variable MurmurHash3_x86_32 : string_view -> Z -> Z.
Variable d : Deduplicator.

Local Abbreviation consume := (consume_token MurmurHash3_x86_32 d).
Local Abbreviation feature :=
  (feature_index MurmurHash3_x86_32 (num_features_ d)).

(** What one token does to the window. *)
Lemma window_slide (p : list string_view) t :
  let n := ngrams_ d in
  let window := drop (length p - n) p ++ [t] in
  (if bool_decide (n < length window)%nat then drop 1 window else window)
  = drop (length (p ++ [t]) - n) (p ++ [t]).
Proof.
  intros n window. subst window. rewrite !length_app, length_drop. cbn [length].
  case_bool_decide as Hlt.
  - destruct (decide (n = 0%nat)) as [Hz|Hz].
    + rewrite Hz, !Nat.sub_0_r, drop_all. cbn [app drop].
      symmetry. apply drop_ge. rewrite length_app. cbn. lia.
    + rewrite drop_app_le by (rewrite length_drop; lia). rewrite drop_drop.
      rewrite drop_app_le by lia. do 2 f_equal. lia.
  - replace (length p - n)%nat with 0%nat by lia.
    replace (length p + 1 - n)%nat with 0%nat by lia. by rewrite !drop_0.
Qed.

Lemma window_length (p : list string_view) :
  length (drop (length p - ngrams_ d) p) = ngrams_ d <-> (ngrams_ d <= length p)%nat.
Proof. rewrite length_drop. lia. Qed.

Lemma shingles_snoc (p : list string_view) t n :
  (1 <= n)%nat ->
  shingles n (p ++ [t])
  = shingles n p ++
    if bool_decide (n <= length (p ++ [t]))%nat
    then [drop (length (p ++ [t]) - n) (p ++ [t])] else [].
Proof.
  intros Hn. unfold shingles. rewrite !length_app. cbn [length].
  case_bool_decide as Hle.
  - replace (length p + 1 + 1 - n)%nat with (S (length p + 1 - n)) by lia.
    rewrite seq_S, fmap_app. cbn [fmap list_fmap Nat.add]. f_equal.
    + apply list_fmap_ext. intros k i Hi. apply lookup_seq in Hi as [-> Hi].
      cbn [Nat.add]. rewrite drop_app_le by lia.
      apply take_app_le. rewrite length_drop. lia.
    + f_equal. apply take_ge. rewrite length_drop, length_app. cbn. lia.
  - replace (length p + 1 + 1 - n)%nat with 0%nat by lia.
    replace (length p + 1 - n)%nat with 0%nat by lia. done.
Qed.

Lemma consume_token_shingles (p : list string_view) t :
  (1 <= ngrams_ d)%nat -> num_features_ d <> 0 ->
  consume (drop (length p - ngrams_ d) p,
           list_to_set (feature <$> shingles (ngrams_ d) p)) t
  = Ok (drop (length (p ++ [t]) - ngrams_ d) (p ++ [t]),
        list_to_set (feature <$> shingles (ngrams_ d) (p ++ [t]))).
Proof.
  intros Hn Hnf. unfold consume_token.
  pose proof (window_slide p t) as Hslide. cbn zeta in Hslide. rewrite Hslide.
  rewrite shingles_snoc by done.
  destruct (decide (ngrams_ d <= length (p ++ [t]))%nat) as [Hfull|Hshort].
  - rewrite (bool_decide_eq_true_2 (length _ = ngrams_ d))
      by (by apply window_length).
    rewrite (bool_decide_eq_false_2 (num_features_ d = 0)) by done.
    rewrite (bool_decide_eq_true_2 (ngrams_ d <= _)%nat) by done.
    f_equal. f_equal. rewrite fmap_app. cbn [fmap list_fmap].
    apply set_eq. intros x.
    rewrite elem_of_union, elem_of_singleton, !elem_of_list_to_set, elem_of_app,
      list_elem_of_singleton.
    unfold feature_index, ngram_key. tauto.
  - rewrite (bool_decide_eq_false_2 (length _ = ngrams_ d))
      by (by rewrite window_length).
    rewrite (bool_decide_eq_false_2 (ngrams_ d <= _)%nat) by done.
    by rewrite app_nil_r.
Qed.

Lemma consume_tokens_shingles (r : list string_view) : forall p,
  (1 <= ngrams_ d)%nat -> num_features_ d <> 0 ->
  for_each consume (drop (length p - ngrams_ d) p,
                    list_to_set (feature <$> shingles (ngrams_ d) p)) r
  = Ok (drop (length (p ++ r) - ngrams_ d) (p ++ r),
        list_to_set (feature <$> shingles (ngrams_ d) (p ++ r))).
Proof.
  induction r as [|t r IH]; intros p Hn Hnf; cbn [for_each].
  - by rewrite app_nil_r.
  - rewrite consume_token_shingles by done. cbn [mbind outcome_bind].
    rewrite IH by done. by rewrite <- app_assoc.
Qed.
End MoreFeatures.

(** X3: with a window of at least one token and a non-zero feature space,
    the FeatureSet of a document is the set of the hashed n-grams of the
    tokens the tokenizer yields: one index per window of [ngrams] consecutive
    tokens, duplicates collapsed. *)
Theorem extract_features_shingles MurmurHash3_x86_32 d text :
  (1 <= ngrams_ d)%nat -> num_features_ d <> 0 ->
  exists tokens,
    TokenGen_drain (mkTokenGen text (nonalnum_ d)) = Ok tokens /\
    extract_features MurmurHash3_x86_32 d text
    = Ok (list_to_set (feature_index MurmurHash3_x86_32 (num_features_ d)
                         <$> shingles (ngrams_ d) tokens)).
Proof.
  intros Hn Hnf. eexists. split; [apply TokenGen_drain_spec|].
  rewrite extract_features_tokens.
  pose proof (consume_tokens_shingles MurmurHash3_x86_32 d
                (maximal_runs (nonalnum_ d) text ++
                 if ends_in_stray_delimiter (nonalnum_ d) text then [[]] else [])
                [] Hn Hnf) as Hloop.
  rewrite drop_nil in Hloop. cbn [app] in Hloop.
  assert (shingles (ngrams_ d) [] = []) as Hnil.
  { unfold shingles. cbn [length]. by replace (0 + 1 - ngrams_ d)%nat with 0%nat by lia. }
  rewrite Hnil in Hloop. cbn [fmap list_fmap list_to_set foldr] in Hloop.
  rewrite Hloop. done.
Qed.

Lemma extract_features_shingles_witness :
  exists tokens,
    TokenGen_drain (mkTokenGen (sv "a b c d") (nonalnum_ small_dedup)) = Ok tokens /\
    extract_features bytesum_hash small_dedup (sv "a b c d")
    = Ok (list_to_set (feature_index bytesum_hash (num_features_ small_dedup)
                         <$> shingles (ngrams_ small_dedup) tokens)).
Proof.
  apply (extract_features_shingles bytesum_hash small_dedup (sv "a b c d")).
  - vm_compute. lia.
  - vm_compute. congruence.
Defined.

Lemma for_each_invariant {A S} (body : S -> A -> outcome S) (I : S -> Prop) l :
  (forall s x s', body s x = Ok s' -> I s -> I s') ->
  forall s s', I s -> for_each body s l = Ok s' -> I s'.
Proof.
  intros Hstep. induction l as [|x l IH]; intros s s' Hs; cbn [for_each].
  - by intros [= <-].
  - destruct (body s x) as [s1| |] eqn:E; cbn [mbind outcome_bind]; try done.
    apply IH. by apply (Hstep s x).
Qed.

(** X4: every index [extract_features] returns is a 32-bit hash reduced
    modulo [num_features]: it lies in [[0, num_features)] and below [2^32],
    whatever the window width and the hash. *)
Theorem extract_features_in_range MurmurHash3_x86_32 d text features :
  0 < num_features_ d ->
  extract_features MurmurHash3_x86_32 d text = Ok features ->
  forall f, f ∈ features -> 0 <= f < num_features_ d /\ f < 2 ^ 32.
Proof.
  intros Hnf. rewrite extract_features_tokens.
  destruct (for_each _ _ _) as [[window indices]| |] eqn:Hloop;
    cbn [mbind outcome_bind]; try done.
  intros [= <-].
  set (I := fun st : list string_view * gset Z =>
              forall f, f ∈ snd st -> 0 <= f < num_features_ d /\ f < 2 ^ 32).
  change (I (window, indices)).
  eapply (for_each_invariant (consume_token MurmurHash3_x86_32 d) I);
    [| |exact Hloop].
  - intros [w idx] t [w' idx']. unfold consume_token, I.
    repeat case_bool_decide; try done; intros [= <- <-] Hidx f; cbn [snd] in *;
      try (by apply Hidx);
      (rewrite elem_of_union, elem_of_singleton; intros [->|Hf]; [|by apply Hidx]);
    set (h := u32 _);
    (assert (0 <= h < 2 ^ 32) as Hh by (apply Z.mod_pos_bound; lia));
    pose proof (Z.mod_pos_bound h (num_features_ d) Hnf);
    pose proof (Z.mod_le h (num_features_ d) ltac:(lia) Hnf); lia.
  - intros f Hf. by apply not_elem_of_empty in Hf.
Qed.

Lemma extract_features_in_range_witness :
  extract_features bytesum_hash small_dedup (sv "a b c d") = Ok {[ 182903; 6036 ]} /\
  0 <= 6036 < num_features_ small_dedup /\ 6036 < 2 ^ 32.
Proof.
  split; [vm_compute; reflexivity|].
  apply (extract_features_in_range bytesum_hash small_dedup (sv "a b c d")
           {[ 182903; 6036 ]}).
  - vm_compute. reflexivity.
  - vm_compute. reflexivity.
  - apply elem_of_union_r, elem_of_singleton. reflexivity.
Defined.

Lemma consume_token_modulus_zero MurmurHash3_x86_32 d window indices t :
  num_features_ d = 0 ->
  length window = (ngrams_ d - 1)%nat ->
  consume_token MurmurHash3_x86_32 d (window, indices) t = Undefined.
Proof.
  intros Hnf Hlen. unfold consume_token.
  assert (length (window ++ [t]) = S (length window)) as Hl
    by (rewrite length_app; cbn; lia).
  destruct (decide (ngrams_ d = 0%nat)) as [Hz|Hz].
  - rewrite (bool_decide_eq_true_2 (ngrams_ d < _)%nat) by lia.
    rewrite (bool_decide_eq_true_2 (length _ = ngrams_ d))
      by (rewrite length_drop; lia).
    by rewrite (bool_decide_eq_true_2 (num_features_ d = 0)).
  - rewrite (bool_decide_eq_false_2 (ngrams_ d < _)%nat) by lia.
    rewrite (bool_decide_eq_true_2 (length _ = ngrams_ d)) by lia.
    by rewrite (bool_decide_eq_true_2 (num_features_ d = 0)).
Qed.

(** X5: with [num_features = 0] the reduction [h % num_features_] is a
    modulus by zero.  It is reached exactly when a window fills up, that is
    when the tokenizer yields at least one token and at least [ngrams] of
    them; every shorter document has the empty FeatureSet. *)
Theorem extract_features_zero_modulus MurmurHash3_x86_32 d text :
  num_features_ d = 0 ->
  exists tokens,
    TokenGen_drain (mkTokenGen text (nonalnum_ d)) = Ok tokens /\
    extract_features MurmurHash3_x86_32 d text
    = if bool_decide (tokens <> [] /\ (ngrams_ d <= length tokens)%nat)
      then Undefined else Ok ∅.
Proof.
  intros Hnf. eexists. split; [apply TokenGen_drain_spec|].
  rewrite extract_features_tokens.
  set (tokens := maximal_runs _ _ ++ _). case_bool_decide as Hfull.
  - destruct Hfull as [Hne Hlen].
    rewrite <- (take_drop (ngrams_ d - 1) tokens), for_each_app.
    assert (for_each (consume_token MurmurHash3_x86_32 d) ([], ∅)
              (take (ngrams_ d - 1) tokens)
            = Ok (take (ngrams_ d - 1) tokens, ∅)) as ->.
    { destruct (decide (ngrams_ d = 0%nat)) as [Hz|Hz].
      - by rewrite Hz.
      - by rewrite consume_tokens_short
          by (cbn [length]; rewrite length_take; lia). }
    cbn [mbind outcome_bind].
    destruct (drop (ngrams_ d - 1) tokens) as [|t rest] eqn:Hdrop.
    { apply (f_equal length) in Hdrop. rewrite length_drop in Hdrop.
      cbn in Hdrop. destruct tokens; [done|]. cbn [length] in *. lia. }
    cbn [for_each].
    by rewrite consume_token_modulus_zero by (rewrite ?length_take; lia).
  - assert (tokens = [] \/ (length tokens < ngrams_ d)%nat) as [->|Hshort].
    { destruct tokens; [by left|]. right.
      destruct (decide (length (s :: tokens) < ngrams_ d)%nat); [done|].
      exfalso. apply Hfull. split; [done|lia]. }
    + done.
    + by rewrite consume_tokens_short by (cbn [length]; lia).
Qed.

Lemma extract_features_zero_modulus_witness :
  exists tokens,
    TokenGen_drain (mkTokenGen (sv "a b c") build_nonalnum) = Ok tokens /\
    extract_features bytesum_hash
      (mkDeduplicator 3 0 dbl_0_3 build_nonalnum two_hashes) (sv "a b c")
    = if bool_decide (tokens <> [] /\ (3 <= length tokens)%nat)
      then Undefined else Ok ∅.
Proof.
  apply (extract_features_zero_modulus bytesum_hash
           (mkDeduplicator 3 0 dbl_0_3 build_nonalnum two_hashes) (sv "a b c")).
  reflexivity.
Defined.

Lemma ngram_key_cons t w : ngram_key (t :: w) = t ++ "_"%char :: ngram_key w.
Proof. unfold ngram_key. cbn [fmap list_fmap concat]. by rewrite <- app_assoc. Qed.

Lemma separator_split (t t' r r' : list ascii) :
  "_"%char ∉ t -> "_"%char ∉ t' ->
  t ++ "_"%char :: r = t' ++ "_"%char :: r' -> t = t' /\ r = r'.
Proof.
  revert t'. induction t as [|c t IH]; intros [|c' t'] Ht Ht' Heq; cbn in Heq.
  - by injection Heq as ->.
  - injection Heq as <- _. exfalso. apply Ht'. left.
  - injection Heq as -> _. exfalso. apply Ht. left.
  - injection Heq as -> Heq.
    destruct (IH t') as [-> ->]; [|by intros H; apply Ht'; right|done|done].
    intros H. apply Ht. by right.
Qed.

(** X6: the bytes hashed for a window determine the window.  The separator
    ["_"] is itself a delimiter, so no token holds it, and two windows of
    tokens that are joined to the same key are the same window: different
    n-grams are never confused before hashing. *)
Theorem ngram_key_injective (w w' : list string_view) :
  Forall (Forall (fun c => c ∉ build_nonalnum)) w ->
  Forall (Forall (fun c => c ∉ build_nonalnum)) w' ->
  ngram_key w = ngram_key w' -> w = w'.
Proof.
  assert (Hsep : forall t : list ascii,
             Forall (fun c => c ∉ build_nonalnum) t -> "_"%char ∉ t).
  { intros t Ht Hin. rewrite Forall_forall in Ht. apply (Ht _ Hin).
    apply elem_of_build_nonalnum. reflexivity. }
  intros Hw. revert w'. induction Hw as [|t w Ht Hw IH]; intros w' Hw' Heq.
  - destruct w' as [|t' w']; [done|]. rewrite ngram_key_cons in Heq.
    by destruct t'.
  - destruct Hw' as [|t' w' Ht' Hw'].
    + rewrite ngram_key_cons in Heq. by destruct t.
    + rewrite !ngram_key_cons in Heq.
      apply separator_split in Heq as [-> Heq]; [|by apply Hsep..].
      f_equal. by apply IH.
Qed.

Lemma ngram_key_injective_witness :
  ngram_key [sv "ab"; sv "c"] = sv "ab_c_" /\
  [sv "ab"; sv "c"] = [sv "ab"; sv "c"].
Proof.
  split; [reflexivity|].
  apply (ngram_key_injective [sv "ab"; sv "c"] [sv "ab"; sv "c"]).
  - compute_done.
  - compute_done.
  - reflexivity.
Defined.

(** X7: [extract_features] sees a document only through its token stream:
    two texts for which the tokenizer yields the same tokens, such as texts
    that differ in punctuation or spacing between the same words, have the
    same FeatureSet and the same signature. *)
Theorem same_tokens_same_features MurmurHash3_x86_32 bucket_order d text text' :
  TokenGen_drain (mkTokenGen text (nonalnum_ d))
  = TokenGen_drain (mkTokenGen text' (nonalnum_ d)) ->
  extract_features MurmurHash3_x86_32 d text
  = extract_features MurmurHash3_x86_32 d text' /\
  signature_of MurmurHash3_x86_32 bucket_order d text
  = signature_of MurmurHash3_x86_32 bucket_order d text'.
Proof.
  rewrite !TokenGen_drain_spec. intros [= Htokens].
  assert (extract_features MurmurHash3_x86_32 d text
          = extract_features MurmurHash3_x86_32 d text') as Hf
    by (by rewrite !extract_features_tokens, Htokens).
  split; [done|]. unfold signature_of. by rewrite Hf.
Qed.

Lemma same_tokens_same_features_witness :
  extract_features bytesum_hash small_dedup (sv "a, b c--d")
  = extract_features bytesum_hash small_dedup (sv "a b c d") /\
  signature_of bytesum_hash elements small_dedup (sv "a, b c--d")
  = signature_of bytesum_hash elements small_dedup (sv "a b c d").
Proof.
  apply (same_tokens_same_features bytesum_hash elements small_dedup
           (sv "a, b c--d") (sv "a b c d")).
  vm_compute. reflexivity.
Defined.

(** ** MinHasher *)

(** X8: signatures merge.  The signature of a union of two feature sets is
    the slot-wise minimum of the signatures of the two sets, so signatures of
    parts of a document can be combined without the features. *)
Theorem compute_signature_union bucket_order h (S T : gset Z) sigS sigT :
  visits_each_once bucket_order ->
  MinHasher_sized h ->
  compute_signature bucket_order h S = Ok sigS ->
  compute_signature bucket_order h T = Ok sigT ->
  compute_signature bucket_order h (S ∪ T) = Ok (zip_with Z.min sigS sigT).
Proof.
  intros Hvisit Hsized HS HT.
  destruct (compute_signature_spec bucket_order Hvisit h S Hsized)
    as (sS & HS' & HlS & HslotS).
  destruct (compute_signature_spec bucket_order Hvisit h T Hsized)
    as (sT & HT' & HlT & HslotT).
  destruct (compute_signature_spec bucket_order Hvisit h (S ∪ T) Hsized)
    as (sU & -> & HsU).
  same_outcome. f_equal.
  apply (is_minhash_signature_unique slot_hash h (S ∪ T)); [done..|].
  split; [rewrite length_zip_with; lia|].
  intros i a b Hia Hib.
  destruct (HslotS i a b Hia Hib) as [HSe HSn], (HslotT i a b Hia Hib) as [HTe HTn].
  rewrite lookup_zip_with.
  assert (Hunion : S ∪ T = ∅ -> S = ∅ /\ T = ∅) by apply empty_union_L.
  destruct (decide (S = ∅)) as [HSempty|HSne], (decide (T = ∅)) as [HTempty|HTne].
  - rewrite (HSe HSempty), (HTe HTempty). cbn. split; [done|].
    intros Hne. exfalso. apply Hne. rewrite HSempty, HTempty. apply union_empty_r_L.
  - rewrite (HSe HSempty). destruct (HTn HTne) as (f & Hf & -> & Hmin). cbn.
    split; [intros [_ ?]%Hunion; done|]. intros _. exists f.
    pose proof (slot_hash_lt a b f). split; [apply elem_of_union; by right|].
    split; [f_equal; lia|]. intros g [Hg|Hg]%elem_of_union; [|by apply Hmin].
    rewrite HSempty in Hg. by apply not_elem_of_empty in Hg.
  - rewrite (HTe HTempty). destruct (HSn HSne) as (f & Hf & -> & Hmin). cbn.
    split; [intros [? _]%Hunion; done|]. intros _. exists f.
    pose proof (slot_hash_lt a b f). split; [apply elem_of_union; by left|].
    split; [f_equal; lia|]. intros g [Hg|Hg]%elem_of_union; [by apply Hmin|].
    rewrite HTempty in Hg. by apply not_elem_of_empty in Hg.
  - destruct (HSn HSne) as (f & Hf & -> & HminS).
    destruct (HTn HTne) as (g & Hg & -> & HminT). cbn.
    split; [intros [? _]%Hunion; done|]. intros _.
    destruct (Z.min_spec (slot_hash a b f) (slot_hash a b g)) as [[Hlt ->]|[Hle ->]].
    + exists f. split; [apply elem_of_union; by left|]. split; [done|].
      intros x [Hx|Hx]%elem_of_union; [by apply HminS|].
      specialize (HminT x Hx). lia.
    + exists g. split; [apply elem_of_union; by right|]. split; [done|].
      intros x [Hx|Hx]%elem_of_union; [|by apply HminT].
      specialize (HminS x Hx). lia.
Qed.

Lemma compute_signature_union_witness :
  compute_signature elements two_hashes ({[ 0; 41 ]} ∪ {[ 7 ]})
  = Ok (zip_with Z.min [3; 12] [24; 47]).
Proof.
  apply (compute_signature_union elements two_hashes {[ 0; 41 ]} {[ 7 ]}).
  - intros S. reflexivity.
  - split; reflexivity.
  - vm_compute. reflexivity.
  - vm_compute. reflexivity.
Defined.

(** X9: every slot of a signature fits a [uint32_t] and lies in [[0, P]];
    it holds the sentinel [P] exactly when the feature set is empty, so a
    signature with one sentinel slot is all-sentinel and stands for a document
    without features. *)
Theorem compute_signature_slots bucket_order h (S : gset Z) sig :
  visits_each_once bucket_order ->
  MinHasher_sized h ->
  compute_signature bucket_order h S = Ok sig ->
  forall (i : nat) s, sig !! i = Some s ->
    0 <= s <= kHashPrime /\ s < 2 ^ 32 /\ (s = kHashPrime <-> S = ∅).
Proof.
  intros Hvisit Hsized Hsig i s Hs.
  destruct (compute_signature_spec bucket_order Hvisit h S Hsized)
    as (sig' & Hsig' & Hlen & Hslot).
  same_outcome.
  assert (i < num_hashes_ h)%nat as Hi by (apply lookup_lt_Some in Hs; lia).
  destruct Hsized as [Ha Hb].
  destruct (lookup_lt_is_Some_2 (a_ h) i ltac:(lia)) as [a Hia].
  destruct (lookup_lt_is_Some_2 (b_ h) i ltac:(lia)) as [b Hib].
  destruct (Hslot i a b Hia Hib) as [Hempty Hne].
  destruct (decide (S = ∅)) as [HS|HS].
  - rewrite (Hempty HS) in Hs. injection Hs as <-. unfold kHashPrime. split; [lia|].
    split; [lia|]. done.
  - destruct (Hne HS) as (f & _ & Hv & _). rewrite Hv in Hs. injection Hs as <-.
    pose proof (slot_hash_lt a b f) as Hlt. unfold kHashPrime in *.
    split; [lia|]. split; [lia|]. split; [lia|done].
Qed.

Lemma compute_signature_slots_witness :
  compute_signature elements two_hashes {[ 0; 41 ]} = Ok [3; 12] /\
  0 <= 12 <= kHashPrime /\ 12 < 2 ^ 32 /\
  (12 = kHashPrime <-> ({[ 0; 41 ]} : gset Z) = ∅).
Proof.
  split; [vm_compute; reflexivity|].
  apply (compute_signature_slots elements two_hashes {[ 0; 41 ]} [3; 12]) with (i := 1%nat).
  - intros S. reflexivity.
  - split; reflexivity.
  - vm_compute. reflexivity.
  - reflexivity.
Defined.

Section Prefix.
Context {engine : Type}.
Variable mt19937 : Z -> engine.
Variable uniform_int_distribution : Z -> Z -> engine -> Z * engine.

Local Abbreviation draw_pair :=
  (fun '(a, b, rng) i =>
    let '(va, rng) := uniform_int_distribution 1 (kHashPrime - 1) rng in
    let '(vb, rng) := uniform_int_distribution 0 (kHashPrime - 1) rng in
    (<[i := va]> a, <[i := vb]> b, rng)).

(** Draws for indices below [k] act alike on a vector and on its first [k]
    entries. *)
Lemma draw_loop_take k (l : list nat) : forall (a b : list Z) rng,
  Forall (fun i => (i < k)%nat) l ->
  exists a' b' rng',
    fold_left draw_pair l (a, b, rng) = (a', b', rng') /\
    fold_left draw_pair l (take k a, take k b, rng) = (take k a', take k b', rng').
Proof.
  induction l as [|i l IH]; intros a b rng Hl; cbn [fold_left].
  - by exists a, b, rng.
  - apply Forall_cons in Hl as [Hi Hl].
    destruct (uniform_int_distribution 1 (kHashPrime - 1) rng) as [va rng2].
    destruct (uniform_int_distribution 0 (kHashPrime - 1) rng2) as [vb rng3].
    destruct (IH (<[i := va]> a) (<[i := vb]> b) rng3 Hl)
      as (a' & b' & rng' & H1 & H2).
    exists a', b', rng'. split; [done|].
    by rewrite <- !take_insert_lt, H2.
Qed.

(** Draws for indices from [k] on leave the first [k] entries alone. *)
Lemma draw_loop_keep k (l : list nat) : forall (a b : list Z) rng,
  Forall (fun i => (k <= i)%nat) l ->
  exists a' b' rng',
    fold_left draw_pair l (a, b, rng) = (a', b', rng') /\
    take k a' = take k a /\ take k b' = take k b.
Proof.
  induction l as [|i l IH]; intros a b rng Hl; cbn [fold_left].
  - by exists a, b, rng.
  - apply Forall_cons in Hl as [Hi Hl].
    destruct (uniform_int_distribution 1 (kHashPrime - 1) rng) as [va rng2].
    destruct (uniform_int_distribution 0 (kHashPrime - 1) rng2) as [vb rng3].
    destruct (IH (<[i := va]> a) (<[i := vb]> b) rng3 Hl)
      as (a' & b' & rng' & H1 & Ha & Hb).
    exists a', b', rng'. split; [done|].
    by rewrite Ha, Hb, !take_insert_ge.
Qed.

Lemma MinHasher_ctor_take k n seed :
  (k <= n)%nat ->
  take k (a_ (MinHasher_ctor mt19937 uniform_int_distribution n seed))
  = a_ (MinHasher_ctor mt19937 uniform_int_distribution k seed) /\
  take k (b_ (MinHasher_ctor mt19937 uniform_int_distribution n seed))
  = b_ (MinHasher_ctor mt19937 uniform_int_distribution k seed).
Proof.
  intros Hk. unfold MinHasher_ctor.
  assert (seq 0 n = seq 0 k ++ seq (0 + k) (n - k)) as ->
    by (rewrite <- seq_app; f_equal; lia).
  rewrite !fold_left_app.
  destruct (draw_loop_take k (seq 0 k) (replicate n 0) (replicate n 0) (mt19937 seed))
    as (a1 & b1 & rng1 & H1 & H2).
  { apply Forall_forall. intros i Hi%elem_of_seq. lia. }
  rewrite !take_replicate, Nat.min_l in H2 by done.
  rewrite H1, H2.
  destruct (draw_loop_keep k (seq (0 + k) (n - k)) a1 b1 rng1)
    as (a2 & b2 & rng2 & H3 & Ha & Hb).
  { apply Forall_forall. intros i Hi%elem_of_seq. lia. }
  rewrite H3. cbn [a_ b_]. done.
Qed.
End Prefix.

(** X10: the hash family grows by extension.  Under the same seed the first
    [k] coefficient pairs of a family of [n >= k] hash functions are the
    pairs of the family of [k] hash functions. *)
Theorem hash_family_prefix {engine : Type} (mt19937 : Z -> engine)
    uniform_int_distribution (k n : nat) seed :
  (k <= n)%nat ->
  take k (a_ (MinHasher_ctor mt19937 uniform_int_distribution n seed))
  = a_ (MinHasher_ctor mt19937 uniform_int_distribution k seed) /\
  take k (b_ (MinHasher_ctor mt19937 uniform_int_distribution n seed))
  = b_ (MinHasher_ctor mt19937 uniform_int_distribution k seed).
Proof. apply MinHasher_ctor_take. Qed.

Lemma hash_family_prefix_witness :
  take 2 (a_ (MinHasher_ctor lcg_seed lcg_draw 13 1))
  = a_ (MinHasher_ctor lcg_seed lcg_draw 2 1) /\
  take 2 (b_ (MinHasher_ctor lcg_seed lcg_draw 13 1))
  = b_ (MinHasher_ctor lcg_seed lcg_draw 2 1).
Proof. apply (hash_family_prefix lcg_seed lcg_draw 2 13 1). lia. Defined.

(** X11: raising [num_hashes] under the same seed extends every signature:
    the signature of a feature set under [k] hash functions is the first [k]
    slots of its signature under [n >= k] hash functions. *)
Theorem compute_signature_prefix {engine : Type} (mt19937 : Z -> engine)
    uniform_int_distribution bucket_order (k n : nat) seed (S : gset Z) sig_n sig_k :
  visits_each_once bucket_order ->
  (k <= n)%nat ->
  compute_signature bucket_order
    (MinHasher_ctor mt19937 uniform_int_distribution n seed) S = Ok sig_n ->
  compute_signature bucket_order
    (MinHasher_ctor mt19937 uniform_int_distribution k seed) S = Ok sig_k ->
  sig_k = take k sig_n.
Proof.
  intros Hvisit Hk Hn Hsk.
  destruct (MinHasher_ctor_take mt19937 uniform_int_distribution k n seed Hk)
    as [Ha Hb].
  destruct (MinHasher_ctor_sized mt19937 uniform_int_distribution n seed)
    as [Hsized_n Hnum_n].
  destruct (MinHasher_ctor_sized mt19937 uniform_int_distribution k seed)
    as [Hsized_k Hnum_k].
  set (hn := MinHasher_ctor mt19937 uniform_int_distribution n seed) in *.
  set (hk := MinHasher_ctor mt19937 uniform_int_distribution k seed) in *.
  destruct (compute_signature_spec bucket_order Hvisit hn S Hsized_n)
    as (sn & Hsn & Hln & Hslot_n).
  destruct (compute_signature_spec bucket_order Hvisit hk S Hsized_k)
    as (sk & Hsk' & Hspec_k).
  same_outcome.
  apply (is_minhash_signature_unique slot_hash hk S); [done..|].
  split; [rewrite length_take; lia|].
  intros i a b Hia Hib.
  assert (i < k)%nat as Hi.
  { apply lookup_lt_Some in Hia. destruct Hsized_k. lia. }
  rewrite <- Ha in Hia. rewrite <- Hb in Hib.
  rewrite lookup_take_lt in Hia, Hib by done.
  rewrite lookup_take_lt by done. by apply Hslot_n.
Qed.

Lemma compute_signature_prefix_witness :
  [884342892; 1048697805] = take 2 [884342892; 1048697805; 338208219].
Proof.
  apply (compute_signature_prefix lcg_seed lcg_draw elements 2 3 1 {[ 5; 9 ]}).
  - intros S. reflexivity.
  - lia.
  - vm_compute. reflexivity.
  - vm_compute. reflexivity.
Defined.

(** ** jaccard_distance *)

Lemma count_body_sym a b m i x y :
  a !! i = Some x -> b !! i = Some y -> count_body a b m i = count_body b a m i.
Proof.
  intros Ha Hb. unfold count_body.
  rewrite (proj2 (vec_at_Ok a i x) Ha), (proj2 (vec_at_Ok b i y) Hb).
  cbn [mbind outcome_bind]. f_equal.
  destruct (decide (x = y)) as [->|Hne]; [done|].
  by rewrite !bool_decide_eq_false_2.
Qed.

(** X12: on signatures of equal length the estimate is symmetric. *)
Theorem jaccard_distance_sym (a b : list Z) :
  length a = length b -> jaccard_distance a b = jaccard_distance b a.
Proof.
  intros Hlen. rewrite !jaccard_distance_unfold, <- Hlen.
  rewrite (for_each_ext (count_body a b) (count_body b a)); [done|].
  intros m i Hi%elem_of_seq.
  destruct (lookup_lt_is_Some_2 a i ltac:(lia)) as [x Hx].
  destruct (lookup_lt_is_Some_2 b i ltac:(lia)) as [y Hy].
  by apply (count_body_sym a b m i x y).
Qed.

Lemma jaccard_distance_sym_witness :
  jaccard_distance [1; 2; 3] [1; 5; 3] = jaccard_distance [1; 5; 3] [1; 2; 3].
Proof. apply (jaccard_distance_sym [1; 2; 3] [1; 5; 3]). reflexivity. Defined.

Lemma for_each_fails {A S} (body : S -> A -> outcome S) s l1 x l2 s1 :
  for_each body s l1 = Ok s1 -> body s1 x = Undefined ->
  for_each body s (l1 ++ x :: l2) = Undefined.
Proof.
  intros H1 Hx. rewrite for_each_app, H1. cbn [mbind outcome_bind for_each].
  by rewrite Hx.
Qed.

(** X13: [jaccard_distance] indexes its second argument with the positions
    of the first.  A second signature that is shorter is read past its end,
    which is undefined; of one that is longer only the first [a.size()] slots
    count. *)
Theorem jaccard_distance_lengths (a b : list Z) :
  ((length b < length a)%nat -> jaccard_distance a b = Undefined) /\
  ((length a <= length b)%nat ->
   jaccard_distance a b = jaccard_distance a (take (length a) b)).
Proof.
  split; intros Hlen; rewrite !jaccard_distance_unfold.
  - assert (seq 0 (length a)
            = seq 0 (length b) ++ length b :: seq (S (length b)) (length a - S (length b)))
      as ->.
    { replace (length a) with (length b + S (length a - S (length b)))%nat at 1 by lia.
      by rewrite seq_app. }
    destruct (count_loop_defined (take (length b) a) b (length b) 0%nat 0) as [m Hm].
    { rewrite length_take. lia. }
    { rewrite length_take. lia. }
    rewrite (for_each_ext (count_body (take (length b) a) b) (count_body a b)) in Hm.
    + erewrite for_each_fails; [done|exact Hm|].
      unfold count_body.
      destruct (vec_at_lt a (length b) Hlen) as (x & -> & _).
      cbn [mbind outcome_bind]. unfold vec_at.
      by rewrite lookup_ge_None_2.
    + intros m' i Hi%elem_of_seq. unfold count_body, vec_at.
      by rewrite lookup_take_lt by lia.
  - rewrite (for_each_ext (count_body a b) (count_body a (take (length a) b)));
      [done|].
    intros m i Hi%elem_of_seq. unfold count_body, vec_at.
    by rewrite lookup_take_lt by lia.
Qed.

Lemma count_body_differ a b m k x y :
  a !! k = Some x -> b !! k = Some y -> x <> y -> count_body a b m k = Ok m.
Proof.
  intros Ha Hb Hne. unfold count_body.
  rewrite (proj2 (vec_at_Ok a k x) Ha), (proj2 (vec_at_Ok b k y) Hb).
  cbn [mbind outcome_bind]. by rewrite bool_decide_eq_false_2.
Qed.

Lemma count_loop_disjoint a b n : forall k m,
  (forall i x y, a !! i = Some x -> b !! i = Some y -> x <> y) ->
  (k + n <= length a)%nat -> (length a <= length b)%nat ->
  for_each (count_body a b) m (seq k n) = Ok m.
Proof.
  induction n as [|n IH]; intros k m Hdiff Hk Hab; cbn [for_each seq]; [done|].
  destruct (lookup_lt_is_Some_2 a k ltac:(lia)) as [x Hx].
  destruct (lookup_lt_is_Some_2 b k ltac:(lia)) as [y Hy].
  rewrite (count_body_differ a b m k x y) by (done || by apply (Hdiff k)).
  cbn [mbind outcome_bind]. apply IH; [done|lia..].
Qed.

(** X14: two signatures of the same non-zero length that agree in no slot
    are at distance exactly [1.0]. *)
Theorem jaccard_distance_disjoint (a b : list Z) :
  length a = length b ->
  0 < Z.of_nat (length a) < 2 ^ 64 ->
  (forall i x y, a !! i = Some x -> b !! i = Some y -> x <> y) ->
  jaccard_distance a b = Ok dbl_one.
Proof.
  intros Hlen Hn Hdiff. rewrite jaccard_distance_unfold.
  rewrite count_loop_disjoint by (done || lia). cbn [mbind outcome_bind].
  destruct (double_of_size_t_finite _ Hn) as (m & e & ->). done.
Qed.

Lemma jaccard_distance_disjoint_witness :
  jaccard_distance [1; 2; 3] [4; 5; 6] = Ok dbl_one.
Proof.
  apply (jaccard_distance_disjoint [1; 2; 3] [4; 5; 6]).
  - reflexivity.
  - vm_compute. split; reflexivity.
  - intros [|[|[|i]]] x y Hx Hy; vm_compute in Hx, Hy; congruence.
Defined.

(** ** process *)

Lemma compare_pair_shape d docs sigs i j out out2 :
  compare_pair d docs sigs i out j = Ok out2 ->
  exists new, out2 = out ++ new /\ (length new <= 1)%nat /\
    Forall (fun r => rep_i r = i /\ rep_j r = j) new.
Proof.
  unfold compare_pair.
  destruct (vec_at sigs i) as [si| |]; cbn [mbind outcome_bind]; try done.
  destruct (vec_at sigs j) as [sj| |]; cbn [mbind outcome_bind]; try done.
  destruct (jaccard_distance si sj) as [dist| |]; cbn [mbind outcome_bind]; try done.
  destruct (dbl_lt dist (threshold_ d)).
  - destruct (vec_at docs i) as [di| |]; cbn [mbind outcome_bind]; try done.
    destruct (vec_at docs j) as [dj| |]; cbn [mbind outcome_bind]; try done.
    intros [= <-]. eexists. split; [done|]. split; [cbn; lia|].
    by repeat constructor.
  - intros [= <-]. exists []. rewrite app_nil_r. split; [done|].
    split; [cbn; lia|constructor].
Qed.

Lemma inner_loop_shape d docs sigs i k : forall lo out out2,
  for_each (compare_pair d docs sigs i) out (seq lo k) = Ok out2 ->
  exists new, out2 = out ++ new /\ (length new <= k)%nat /\
    StronglySorted report_before new /\
    Forall (fun r => rep_i r = i /\ (lo <= rep_j r < lo + k)%nat) new.
Proof.
  induction k as [|k IH]; intros lo out out2; cbn [for_each seq].
  - intros [= <-]. exists []. rewrite app_nil_r. repeat split; try done; constructor.
  - destruct (compare_pair d docs sigs i out lo) as [out1| |] eqn:E;
      cbn [mbind outcome_bind]; try done.
    apply compare_pair_shape in E as (new1 & -> & Hl1 & Hall1). intros Hrest.
    apply IH in Hrest as (new2 & -> & Hl2 & Hsorted2 & Hall2).
    exists (new1 ++ new2). split; [by rewrite <- app_assoc|].
    split; [rewrite length_app; lia|]. split.
    + apply StronglySorted_app_2; [| |done].
      * intros r1 r2 Hr1 Hr2. rewrite Forall_forall in Hall1, Hall2.
        destruct (Hall1 r1 Hr1) as [Hi1 Hj1], (Hall2 r2 Hr2) as [Hi2 Hj2].
        right. split; [congruence|lia].
      * destruct new1 as [|r [|r' new1]]; [constructor|repeat constructor|].
        cbn in Hl1. lia.
    + apply Forall_app. split.
      * eapply Forall_impl; [exact Hall1|]. intros r [? ?]. split; [done|lia].
      * eapply Forall_impl; [exact Hall2|]. intros r [? ?]. split; [done|lia].
Qed.

Lemma outer_loop_shape d docs sigs k : forall lo out out2,
  (lo + k <= length docs)%nat ->
  for_each (fun out i =>
      for_each (compare_pair d docs sigs i) out
        (seq (i + 1) (length docs - (i + 1))))
    out (seq lo k) = Ok out2 ->
  exists new, out2 = out ++ new /\
    2 * Z.of_nat (length new)
      + (Z.of_nat (length docs) - Z.of_nat lo - Z.of_nat k)
        * (Z.of_nat (length docs) - Z.of_nat lo - Z.of_nat k - 1)
    <= (Z.of_nat (length docs) - Z.of_nat lo)
       * (Z.of_nat (length docs) - Z.of_nat lo - 1) /\
    StronglySorted report_before new /\
    Forall (fun r => (lo <= rep_i r < lo + k)%nat /\
                     (rep_i r < rep_j r < length docs)%nat) new.
Proof.
  induction k as [|k IH]; intros lo out out2 Hk; cbn [for_each seq].
  - intros [= <-]. exists []. rewrite app_nil_r. cbn [length].
    split; [done|]. split; [lia|]. split; constructor.
  - destruct (for_each (compare_pair d docs sigs lo) out _) as [out1| |] eqn:E;
      cbn [mbind outcome_bind]; try done.
    apply inner_loop_shape in E as (new1 & -> & Hl1 & Hsorted1 & Hall1).
    intros Hrest.
    apply IH in Hrest as (new2 & -> & Hl2 & Hsorted2 & Hall2); [|lia].
    exists (new1 ++ new2). split; [by rewrite <- app_assoc|]. split; [|split].
    + rewrite length_app. nia.
    + apply StronglySorted_app_2; [|done..].
      intros r1 r2 Hr1 Hr2. rewrite Forall_forall in Hall1, Hall2.
      destruct (Hall1 r1 Hr1) as [Hi1 Hj1], (Hall2 r2 Hr2) as [Hi2 Hj2].
      left. lia.
    + apply Forall_app. split.
      * eapply Forall_impl; [exact Hall1|]. intros r [? ?]. lia.
      * eapply Forall_impl; [exact Hall2|]. intros r [? ?]. lia.
Qed.

Lemma process_shape MurmurHash3_x86_32 bucket_order d docs out :
  process MurmurHash3_x86_32 bucket_order d docs = Ok out ->
  2 * Z.of_nat (length out) <= Z.of_nat (length docs) * (Z.of_nat (length docs) - 1) /\
  StronglySorted report_before out /\
  Forall (fun r => (rep_i r < rep_j r < length docs)%nat) out.
Proof.
  unfold process.
  destruct (compute_signatures _ _ d docs) as [sigs| |]; cbn [mbind outcome_bind];
    try done.
  intros Hloops.
  apply outer_loop_shape in Hloops as (new & -> & Hlen & Hsorted & Hall); [|lia].
  cbn [app]. split; [|split; [done|]].
  - replace (Z.of_nat (length docs) - Z.of_nat 0 - Z.of_nat (length docs)) with 0
      in Hlen by lia. lia.
  - eapply Forall_impl; [exact Hall|]. intros r [? ?]. lia.
Qed.

Lemma report_before_irrefl r : ~ report_before r r.
Proof. unfold report_before. lia. Qed.

(** X15: the reports come out in the order of the loops, by first index and
    then by second, with [i < j < n] in each; no pair of documents is
    reported twice. *)
Theorem process_reports_sorted MurmurHash3_x86_32 bucket_order d docs out :
  process MurmurHash3_x86_32 bucket_order d docs = Ok out ->
  StronglySorted report_before out /\
  Forall (fun r => (rep_i r < rep_j r < length docs)%nat) out /\
  NoDup ((fun r => (rep_i r, rep_j r)) <$> out).
Proof.
  intros Hout. apply process_shape in Hout as (_ & Hsorted & Hall).
  split; [done|]. split; [done|]. clear Hall.
  induction Hsorted as [|r out Hsorted IH Hhead]; cbn [fmap list_fmap];
    constructor; [|done].
  intros Hin. apply list_elem_of_fmap in Hin as (r' & Heq & Hr').
  rewrite Forall_forall in Hhead. specialize (Hhead r' Hr').
  injection Heq as Hi Hj. unfold report_before in Hhead. lia.
Qed.

Lemma process_reports_sorted_witness :
  StronglySorted report_before
    [mkReport 0 2 dbl_one fox fox] /\
  Forall (fun r => (rep_i r < rep_j r < length [fox; others; fox])%nat)
    [mkReport 0 2 dbl_one fox fox] /\
  NoDup ((fun r => (rep_i r, rep_j r)) <$> [mkReport 0 2 dbl_one fox fox]).
Proof.
  apply (process_reports_sorted bytesum_hash elements small_dedup [fox; others; fox]).
  vm_compute. reflexivity.
Defined.

(** X16: a corpus of [n] documents yields at most [n (n - 1) / 2] reports,
    hence none when it holds fewer than two documents. *)
Theorem process_reports_count MurmurHash3_x86_32 bucket_order d docs out :
  process MurmurHash3_x86_32 bucket_order d docs = Ok out ->
  2 * Z.of_nat (length out) <= Z.of_nat (length docs) * (Z.of_nat (length docs) - 1) /\
  ((length docs < 2)%nat -> out = []).
Proof.
  intros Hout. apply process_shape in Hout as (Hlen & _). split; [done|].
  intros Hn. destruct out; [done|]. cbn [length] in Hlen. nia.
Qed.

Lemma process_reports_count_witness :
  2 * Z.of_nat (length [mkReport 0 2 dbl_one fox fox])
  <= Z.of_nat (length [fox; others; fox]) * (Z.of_nat (length [fox; others; fox]) - 1) /\
  ((length [fox; others; fox] < 2)%nat -> [mkReport 0 2 dbl_one fox fox] = []).
Proof.
  apply (process_reports_count bytesum_hash elements small_dedup [fox; others; fox]).
  vm_compute. reflexivity.
Defined.

(** X17: with [num_hashes = 0] every signature is empty, every distance is
    NaN and no comparison with the threshold succeeds: [process] reports
    nothing, whatever the documents and the threshold. *)
Theorem process_without_hashes MurmurHash3_x86_32 bucket_order d docs :
  num_hashes_ (hasher_ d) = 0%nat ->
  MinHasher_sized (hasher_ d) ->
  num_features_ d <> 0 ->
  process MurmurHash3_x86_32 bucket_order d docs = Ok [].
Proof.
  intros Hzero Hsized Hnf.
  destruct (process_spec MurmurHash3_x86_32 bucket_order d docs Hnf Hsized)
    as (out & -> & Hmem).
  f_equal. destruct out as [|r out]; [done|]. exfalso.
  destruct (proj1 (Hmem r) ltac:(left))
    as (i & j & _ & di & dj & si & sj & dist & _ & _ & Hsi & Hsj & Hdist & Hlt & _).
  destruct (signature_of_defined MurmurHash3_x86_32 bucket_order d Hnf Hsized di)
    as (si' & Hsi' & Hli).
  destruct (signature_of_defined MurmurHash3_x86_32 bucket_order d Hnf Hsized dj)
    as (sj' & Hsj' & Hlj).
  same_outcome. rewrite Hzero in Hli, Hlj.
  destruct si; [|done]. destruct sj; [|done].
  vm_compute in Hdist. injection Hdist as <-. done.
Qed.

Lemma process_without_hashes_witness :
  process bytesum_hash elements
    (mkDeduplicator 3 262144 dbl_0_3 build_nonalnum (mkMinHasher 0 [] []))
    [fox; fox] = Ok [].
Proof.
  apply (process_without_hashes bytesum_hash elements
           (mkDeduplicator 3 262144 dbl_0_3 build_nonalnum (mkMinHasher 0 [] []))
           [fox; fox]).
  - reflexivity.
  - split; reflexivity.
  - vm_compute. congruence.
Defined.

Lemma dbl_lt_le_trans x y z :
  dbl_lt x y = true -> dbl_le y z = true -> dbl_lt x z = true.
Proof.
  unfold dbl_lt, dbl_le, SFltb, SFleb, SFcompare.
  destruct x as [sx|sx| |sx mx ex], y as [sy|sy| |sy my ey], z as [sz|sz| |sz mz ez];
    try (destruct sx); try (destruct sy); try (destruct sz); try done;
    change (Pos.compare_cont Eq) with Pos.compare;
    repeat match goal with
           | |- context [Z.compare ?a ?b] => destruct (Z.compare_spec a b)
           | |- context [Pos.compare ?a ?b] => destruct (Pos.compare_spec a b)
           end; cbn; try done; try lia.
Qed.

Lemma signature_of_with_threshold MurmurHash3_x86_32 bucket_order d threshold doc :
  signature_of MurmurHash3_x86_32 bucket_order (with_threshold d threshold) doc
  = signature_of MurmurHash3_x86_32 bucket_order d doc.
Proof.
  unfold signature_of. rewrite !extract_features_tokens.
  cbn [with_threshold nonalnum_ hasher_].
  rewrite (for_each_ext (consume_token MurmurHash3_x86_32 (with_threshold d threshold))
             (consume_token MurmurHash3_x86_32 d)); [done|].
  by intros [window indices] t _.
Qed.

(** X18: raising the threshold only adds reports.  Every report printed
    under a threshold is printed, with the same similarity, under any
    threshold that is at least as large. *)
Theorem process_threshold_monotone MurmurHash3_x86_32 bucket_order d threshold' docs :
  num_features_ d <> 0 ->
  MinHasher_sized (hasher_ d) ->
  dbl_le (threshold_ d) threshold' = true ->
  exists out out',
    process MurmurHash3_x86_32 bucket_order d docs = Ok out /\
    process MurmurHash3_x86_32 bucket_order (with_threshold d threshold') docs = Ok out' /\
    forall r, r ∈ out -> r ∈ out'.
Proof.
  intros Hnf Hsized Hle.
  destruct (process_spec MurmurHash3_x86_32 bucket_order d docs Hnf Hsized)
    as (out & Hout & Hmem).
  destruct (process_spec MurmurHash3_x86_32 bucket_order (with_threshold d threshold')
              docs Hnf Hsized) as (out' & Hout' & Hmem').
  exists out, out'. split; [done|]. split; [done|]. intros r Hr.
  apply Hmem in Hr as (i & j & Hij & di & dj & si & sj & dist &
                       Hdi & Hdj & Hsi & Hsj & Hdist & Hlt & ->).
  apply Hmem'. exists i, j. split; [done|].
  exists di, dj, si, sj, dist. rewrite !signature_of_with_threshold.
  repeat (split; [done|]). split; [|done].
  cbn [with_threshold threshold_]. by apply (dbl_lt_le_trans _ (threshold_ d)).
Qed.

Lemma process_threshold_monotone_witness :
  exists out out',
    process bytesum_hash elements small_dedup [fox; others; fox] = Ok out /\
    process bytesum_hash elements (with_threshold small_dedup dbl_one)
      [fox; others; fox] = Ok out' /\
    forall r, r ∈ out -> r ∈ out'.
Proof.
  apply (process_threshold_monotone bytesum_hash elements small_dedup dbl_one
           [fox; others; fox]).
  - vm_compute. congruence.
  - split; reflexivity.
  - vm_compute. reflexivity.
Defined.

Lemma is_report_of_app signature threshold docs more (i j : nat) r :
  (i < length docs)%nat -> (j < length docs)%nat ->
  is_report_of signature threshold (docs ++ more) i j r
  <-> is_report_of signature threshold docs i j r.
Proof.
  intros Hi Hj. unfold is_report_of.
  by rewrite !lookup_app_l by done.
Qed.

(** X19: adding documents at the end of the corpus keeps every earlier
    report and adds reports only for pairs that involve a new document. *)
Theorem process_corpus_extension MurmurHash3_x86_32 bucket_order d docs more :
  num_features_ d <> 0 ->
  MinHasher_sized (hasher_ d) ->
  exists out out',
    process MurmurHash3_x86_32 bucket_order d docs = Ok out /\
    process MurmurHash3_x86_32 bucket_order d (docs ++ more) = Ok out' /\
    forall r, r ∈ out <-> r ∈ out' /\ (rep_j r < length docs)%nat.
Proof.
  intros Hnf Hsized.
  destruct (process_spec MurmurHash3_x86_32 bucket_order d docs Hnf Hsized)
    as (out & Hout & Hmem).
  destruct (process_spec MurmurHash3_x86_32 bucket_order d (docs ++ more) Hnf Hsized)
    as (out' & Hout' & Hmem').
  exists out, out'. split; [done|]. split; [done|]. intros r.
  rewrite Hmem, Hmem', length_app. split.
  - intros (i & j & Hij & Hr). split.
    + exists i, j. split; [lia|]. apply is_report_of_app; [lia..|done].
    + destruct Hr as (? & ? & ? & ? & ? & _ & _ & _ & _ & _ & _ & ->). cbn. lia.
  - intros [(i & j & Hij & Hr) Hj].
    assert (rep_j r = j) as Hrj
      by (destruct Hr as (? & ? & ? & ? & ? & _ & _ & _ & _ & _ & _ & ->); done).
    exists i, j. split; [lia|]. apply (is_report_of_app _ _ docs more); [lia..|done].
Qed.

Lemma process_corpus_extension_witness :
  exists out out',
    process bytesum_hash elements small_dedup [fox; others] = Ok out /\
    process bytesum_hash elements small_dedup ([fox; others] ++ [fox]) = Ok out' /\
    forall r, r ∈ out <-> r ∈ out' /\ (rep_j r < length [fox; others])%nat.
Proof.
  apply (process_corpus_extension bytesum_hash elements small_dedup
           [fox; others] [fox]).
  - vm_compute. congruence.
  - split; reflexivity.
Defined.

Lemma consume_tokens_zero_width MurmurHash3_x86_32 d tokens : forall indices,
  ngrams_ d = 0%nat -> num_features_ d <> 0 -> tokens <> [] ->
  for_each (consume_token MurmurHash3_x86_32 d) ([], indices) tokens
  = Ok ([], {[ feature_index MurmurHash3_x86_32 (num_features_ d) [] ]} ∪ indices).
Proof.
  induction tokens as [|t tokens IH]; intros indices Hz Hnf Hne; [done|].
  cbn [for_each].
  assert (consume_token MurmurHash3_x86_32 d ([], indices) t
          = Ok ([], {[ feature_index MurmurHash3_x86_32 (num_features_ d) [] ]}
                    ∪ indices)) as ->.
  { unfold consume_token. cbn [app length]. rewrite Hz.
    rewrite (bool_decide_eq_true_2 (0 < 1)%nat) by lia. cbn [drop length].
    rewrite (bool_decide_eq_true_2 (0 = 0)%nat) by done.
    by rewrite (bool_decide_eq_false_2 (num_features_ d = 0)). }
  cbn [mbind outcome_bind]. destruct tokens as [|t' tokens]; [done|].
  rewrite IH by done. do 2 f_equal.
  rewrite (assoc_L (∪)). f_equal. apply union_idemp_L.
Qed.

(** X20: with [ngrams = 0] the window is emptied after every token and the
    empty n-gram is hashed each time: every document for which the tokenizer
    yields a token has the same one-element FeatureSet, and a document
    without tokens the empty one. *)
Theorem extract_features_zero_width MurmurHash3_x86_32 d text :
  ngrams_ d = 0%nat -> num_features_ d <> 0 ->
  exists tokens,
    TokenGen_drain (mkTokenGen text (nonalnum_ d)) = Ok tokens /\
    extract_features MurmurHash3_x86_32 d text
    = Ok (if bool_decide (tokens = []) then ∅
          else {[ feature_index MurmurHash3_x86_32 (num_features_ d) [] ]}).
Proof.
  intros Hz Hnf. eexists. split; [apply TokenGen_drain_spec|].
  rewrite extract_features_tokens. set (tokens := maximal_runs _ _ ++ _).
  case_bool_decide as Hempty.
  - by rewrite Hempty.
  - rewrite consume_tokens_zero_width by done. cbn [mbind outcome_bind snd].
    f_equal. apply union_empty_r_L.
Qed.

Lemma extract_features_zero_width_witness :
  exists tokens,
    TokenGen_drain (mkTokenGen fox build_nonalnum) = Ok tokens /\
    extract_features bytesum_hash
      (mkDeduplicator 0 262144 dbl_0_3 build_nonalnum two_hashes) fox
    = Ok (if bool_decide (tokens = []) then ∅
          else {[ feature_index bytesum_hash 262144 [] ]}).
Proof.
  apply (extract_features_zero_width bytesum_hash
           (mkDeduplicator 0 262144 dbl_0_3 build_nonalnum two_hashes) fox).
  - reflexivity.
  - vm_compute. congruence.
Defined.
